(** * flexcli: the [DynamicCLI] registry, resolver and dispatch loop

    A shallow embedding of [flexcli.py].  The class [DynamicCLI] becomes a
    record of its five attributes; every method becomes a function that takes
    the object and returns the object after the call together with what the
    method returned, raised or printed.

    Conventions.
    - A Python [str] is a [string]: the sequence of the bytes of its UTF-8
      encoding.  Byte-wise lexicographic order on UTF-8 is code-point order,
      and a byte prefix of well-formed UTF-8 is a code-point prefix, so
      [sorted] and [str.startswith] are the list sort by [String.leb] and
      [String.prefix].
    - A Python [dict] is an association list in insertion order with unique
      keys: [show_help] and [get_command_aliases] iterate over the dicts, so
      the order is observable.
    - A handler is an opaque callable of the embedding application: it is
      modelled by what one call on given arguments prints and how it ends.
      A handler does not register commands while it runs. *)

From Stdlib Require Import String Ascii List Bool ZArith Lia.
From Stdlib Require Import Permutation Sorted.
From Stdlib Require DecimalString.
Import ListNotations.
Local Open Scope string_scope.
Local Open Scope list_scope.

(** ** Python values used by the module *)

(** The line feed of the Python literals written with a backslash and [n]. *)
Definition nl : string := String "010"%char EmptyString.

(** An f-string is the concatenation of its literal parts and of the [str]
    of its replacement fields. *)
Definition fstring (parts : list string) : string := String.concat EmptyString parts.

(** [s.startswith(prefix)] *)
Definition startswith (s prefix : string) : bool := String.prefix prefix s.

(** *** Insertion-ordered dictionaries *)

Definition dict (V : Type) : Type := list (string * V).

Section Dict.
Context {V : Type}.

(** [d.get(k)]: [None] when [k] is not a key. *)
Fixpoint dict_get (k : string) (d : dict V) : option V :=
  match d with
  | [] => None
  | (k', v) :: d' => if String.eqb k' k then Some v else dict_get k d'
  end.

(** [k in d] *)
Definition dict_in (k : string) (d : dict V) : bool :=
  match dict_get k d with Some _ => true | None => false end.

(** [d[k] = v]: an existing key keeps its position, a new key is appended. *)
Fixpoint dict_set (k : string) (v : V) (d : dict V) : dict V :=
  match d with
  | [] => [(k, v)]
  | (k', v') :: d' =>
      if String.eqb k' k then (k', v) :: d' else (k', v') :: dict_set k v d'
  end.

(** [list(d.keys())] *)
Definition dict_keys (d : dict V) : list string := map fst d.

(** [d.items()] *)
Definition dict_items (d : dict V) : list (string * V) := d.
End Dict.

(** *** [sorted] on lists of strings

    Python's [sorted] is a stable sort; on strings, whose order is total and
    antisymmetric, every sort returns the same list.  It is modelled by
    insertion sort. *)

Fixpoint insert_sorted (x : string) (l : list string) : list string :=
  match l with
  | [] => [x]
  | y :: l' => if String.leb x y then x :: l else y :: insert_sorted x l'
  end.

Fixpoint sorted (l : list string) : list string :=
  match l with
  | [] => []
  | x :: l' => insert_sorted x (sorted l')
  end.

(** *** Handlers and exceptions *)

(** How a call of a handler ends.  [Raises e] is an exception that is an
    instance of [Exception], with [str(e) = e]; [RaisesBase e] is one that is
    not (SystemExit from [sys.exit], KeyboardInterrupt,
    asyncio.CancelledError), which a clause [except Exception] lets through. *)
Inductive outcome : Type :=
| Returns
| Raises (e : string)
| RaisesBase (e : string).

(** One call of a handler on the unpacked argument list, awaited when the
    handler was registered as asynchronous: the lines it prints, and how it
    ends. *)
Definition Callable : Type := list string -> list string * outcome.

(** The exception [register_command] raises. *)
Inductive exn : Type :=
| ValueError (msg : string).

(** How a call of a method that returns nothing ends. *)
Inductive completion : Type :=
| Done
| Raised (e : exn).

(** What a run does that can be seen from outside: a line written by
    [print], and a call of a registered handler with its arguments. *)
Inductive event : Type :=
| Print (line : string)
| Invoke (command : string) (is_async : bool) (args : list string).

(** How [run_async] ends: with an exit code, or with an exception leaving
    the coroutine. *)
Inductive termination : Type :=
| Return (exit_code : Z)
| Propagates (e : string).

(** ** The class [DynamicCLI] *)

Record DynamicCLI : Type := mkDynamicCLI {
  commands : dict Callable;
  async_commands : dict Callable;
  alias_map : dict string;
  docs : dict string;
  _all_commands_cached : option (list string)
}.

(** [__init__] *)
Definition init : DynamicCLI :=
  {| commands := []; async_commands := []; alias_map := []; docs := [];
     _all_commands_cached := None |}.

Definition set_commands (self : DynamicCLI) (c : dict Callable) : DynamicCLI :=
  {| commands := c; async_commands := async_commands self;
     alias_map := alias_map self; docs := docs self;
     _all_commands_cached := _all_commands_cached self |}.

Definition set_async_commands (self : DynamicCLI) (c : dict Callable) : DynamicCLI :=
  {| commands := commands self; async_commands := c;
     alias_map := alias_map self; docs := docs self;
     _all_commands_cached := _all_commands_cached self |}.

Definition set_alias_map (self : DynamicCLI) (m : dict string) : DynamicCLI :=
  {| commands := commands self; async_commands := async_commands self;
     alias_map := m; docs := docs self;
     _all_commands_cached := _all_commands_cached self |}.

Definition set_docs (self : DynamicCLI) (d : dict string) : DynamicCLI :=
  {| commands := commands self; async_commands := async_commands self;
     alias_map := alias_map self; docs := d;
     _all_commands_cached := _all_commands_cached self |}.

Definition set_cache (self : DynamicCLI) (c : option (list string)) : DynamicCLI :=
  {| commands := commands self; async_commands := async_commands self;
     alias_map := alias_map self; docs := docs self;
     _all_commands_cached := c |}.

(** The test of lines 43 and 55: the string is a key of [commands], of
    [async_commands] or of [alias_map]. *)
Definition taken (self : DynamicCLI) (s : string) : bool :=
  dict_in s (commands self) || dict_in s (async_commands self)
  || dict_in s (alias_map self).

(** The loop of lines 54-57 over the aliases in iteration order: the first
    alias that is taken raises, and the aliases before it stay installed. *)
Fixpoint install_aliases (self : DynamicCLI) (name : string)
    (aliases : list string) : DynamicCLI * completion :=
  match aliases with
  | [] => (self, Done)
  | alias :: rest =>
      if taken self alias then
        (self, Raised (ValueError (fstring
           ["Alias '"; alias; "' conflicts with an existing command or alias."])))
      else
        install_aliases
          (set_alias_map self (dict_set alias name (alias_map self))) name rest
  end.

(** [doc or "No description provided."]: [None] and the empty string are
    both false. *)
Definition doc_or_default (doc : option string) : string :=
  match doc with
  | Some d => if String.eqb d EmptyString then "No description provided." else d
  | None => "No description provided."
  end.

(** [register_command(name, handler, async_handler, aliases, doc)].
    [aliases] is [None] or the elements of the argument in the order its
    iteration yields them. *)
Definition register_command (self : DynamicCLI) (name : string)
    (handler : Callable) (async_handler : bool)
    (aliases : option (list string)) (doc : option string)
    : DynamicCLI * completion :=
  if taken self name then
    (self, Raised (ValueError (fstring
       ["Command or alias '"; name; "' is already registered."])))
  else
    let self1 :=
      if async_handler
      then set_async_commands self (dict_set name handler (async_commands self))
      else set_commands self (dict_set name handler (commands self)) in
    let self2 := set_docs self1 (dict_set name (doc_or_default doc) (docs self1)) in
    let '(self3, r) :=
      match aliases with
      | Some ((_ :: _) as al) => install_aliases self2 name al
      | _ => (self2, Done)
      end in
    match r with
    | Raised e => (self3, Raised e)
    | Done => (set_cache self3 None, Done)
    end.

(** The object after lines 46-51: the command and its doc are stored. *)
Definition store_command (self : DynamicCLI) (name : string)
    (handler : Callable) (async_handler : bool) (doc : option string)
    : DynamicCLI :=
  let self1 :=
    if async_handler
    then set_async_commands self (dict_set name handler (async_commands self))
    else set_commands self (dict_set name handler (commands self)) in
  set_docs self1 (dict_set name (doc_or_default doc) (docs self1)).

(** [_resolve_command(command_name)] *)
Definition _resolve_command (self : DynamicCLI) (command_name : string)
    : option string :=
  if dict_in command_name (commands self)
     || dict_in command_name (async_commands self)
  then Some command_name
  else dict_get command_name (alias_map self).

(** [list_commands()]: fills the cache when it is empty and returns it. *)
Definition list_commands (self : DynamicCLI) : DynamicCLI * list string :=
  match _all_commands_cached self with
  | None =>
      let all_primary_commands :=
        dict_keys (commands self) ++ dict_keys (async_commands self) in
      let l := sorted all_primary_commands in
      (set_cache self (Some l), l)
  | Some l => (self, l)
  end.

(** [get_command_aliases(command_name)] *)
Definition get_command_aliases (self : DynamicCLI) (command_name : string)
    : list string :=
  map fst (filter (fun at_ => String.eqb (snd at_) command_name)
                  (dict_items (alias_map self))).

(** [complete_command(prefix)] *)
Definition complete_command (self : DynamicCLI) (prefix : string)
    : DynamicCLI * list string :=
  let '(self', all_cmds) := list_commands self in
  let suggestions := filter (fun cmd => startswith cmd prefix) all_cmds in
  let suggestions := suggestions ++
    filter (fun alias => startswith alias prefix) (dict_keys (alias_map self')) in
  (self', sorted suggestions).

(** [_format_aliases(command_name)] *)
Definition _format_aliases (self : DynamicCLI) (command_name : string) : string :=
  match get_command_aliases self command_name with
  | [] => EmptyString
  | aliases => fstring [" (aliases: "; String.concat ", " aliases; ")"]
  end.

(** [show_help()]: the lines it prints.  It calls [list_commands], so it may
    fill the cache. *)
Definition show_help (self : DynamicCLI) : DynamicCLI * list event :=
  let '(self', cmds) := list_commands self in
  let line cmd :=
    let alias_text := _format_aliases self' cmd in
    let ctype := if dict_in cmd (async_commands self') then "(async)" else "(sync)" in
    Print (fstring ["  "; cmd; " "; ctype; alias_text]) in
  (self',
   [Print "Available commands:"] ++ map line cmds ++
   [Print (fstring [nl; "Use '<command> --help' for details about a specific command."])]).

(** [show_command_help(command_name)] *)
Definition show_command_help (self : DynamicCLI) (command_name : string)
    : list event :=
  let doc :=
    match dict_get command_name (docs self) with
    | Some d => d
    | None => "No description available."
    end in
  [Print (fstring ["Help for command '"; command_name; "':"; nl; doc])].

(** [_execute_sync(handler, args)] *)
Definition _execute_sync (handler : Callable) (args : list string)
    : list string * outcome :=
  handler args.

(** [_execute_async(handler, args)] *)
Definition _execute_async (handler : Callable) (args : list string)
    : list string * outcome :=
  handler args.

(** The [try] statement of lines 189-200 around one handler call: an
    [Exception] is reported and gives exit code 1, any other exception leaves
    [run_async]. *)
Definition guarded_call (resolved_command : string) (is_async : bool)
    (call : list string * outcome) (command_args : list string)
    : list event * termination :=
  let '(lines, out) := call in
  let trace := Invoke resolved_command is_async command_args :: map Print lines in
  match out with
  | Returns => (trace, Return 0)
  | Raises e =>
      (trace ++ [Print (fstring ["Command '"; resolved_command;
                                 "' failed with error: "; e])],
       Return 1)
  | RaisesBase e => (trace, Propagates e)
  end.

(** [run_async(args)]: the object after the run, the trace of the run and
    how the run ends. *)
Definition run_async (self : DynamicCLI) (args : list string)
    : DynamicCLI * list event * termination :=
  match args with
  | [] =>
      let '(self', help) := show_help self in
      (self', Print (fstring ["No command provided."; nl]) :: help, Return 1)
  | command_name :: _ =>
      if String.eqb command_name "--help" then
        let '(self', help) := show_help self in
        (self', help, Return 0)
      else
        let unknown :=
          let '(self', help) := show_help self in
          (self',
           Print (fstring ["Unknown command or alias: '"; command_name; "'"; nl])
             :: help,
           Return 1) in
        match _resolve_command self command_name with
        | None => unknown
        | Some resolved_command =>
            (* [not resolved_command] also holds of the empty string *)
            if String.eqb resolved_command EmptyString then unknown
            else if match tl args with
                    | a1 :: _ => String.eqb a1 "--help"
                    | [] => false
                    end
            then (self, show_command_help self resolved_command, Return 0)
            else
              let command_args := tl args in
              match dict_get resolved_command (commands self) with
              | Some handler =>
                  let '(trace, t) :=
                    guarded_call resolved_command false
                      (_execute_sync handler command_args) command_args in
                  (self, trace, t)
              | None =>
                  match dict_get resolved_command (async_commands self) with
                  | Some handler =>
                      let '(trace, t) :=
                        guarded_call resolved_command true
                          (_execute_async handler command_args) command_args in
                      (self, trace, t)
                  | None =>
                      let '(self', help) := show_help self in
                      (self',
                       Print (fstring ["Error: command '"; resolved_command;
                                       "' not found."]) :: help,
                       Return 1)
                  end
              end
        end
  end.

(** ** The example applications *)

(** [greet] of [examples/basic_usage.py]: one optional parameter. *)
Definition greet : Callable := fun args =>
  match args with
  | [] => ([fstring ["Hello, "; "world"; "!"]], Returns)
  | [name] => ([fstring ["Hello, "; name; "!"]], Returns)
  | _ => ([], Raises "greet() takes from 0 to 1 positional arguments but more were given")
  end.

(** A handler that prints nothing and returns. *)
Definition noop : Callable := fun _ => ([], Returns).

(** A handler that calls [sys.exit(2)]. *)
Definition exits : Callable := fun _ => ([], RaisesBase "2").

(** A handler that raises [RuntimeError("boom")]. *)
Definition fails : Callable := fun _ => ([], Raises "boom").

(** ** Order of strings *)

Definition le_string (x y : string) : Prop := String.leb x y = true.
Definition lt_string (x y : string) : Prop := String.ltb x y = true.

(** A list is ascending when every element is below all the later ones. *)
Definition ascending (l : list string) : Prop := StronglySorted le_string l.

(** Ascending without repetition. *)
Definition strictly_ascending (l : list string) : Prop := StronglySorted lt_string l.

(** ** Registry states *)

(** The primary command names: the keys of [commands] and of
    [async_commands]. *)
Definition primary (self : DynamicCLI) : list string :=
  dict_keys (commands self) ++ dict_keys (async_commands self).

(** Every string the registry answers to: primary names, then aliases. *)
Definition names (self : DynamicCLI) : list string :=
  primary self ++ dict_keys (alias_map self).

(** The handler stored under a primary name, and whether it is in
    [async_commands]; [commands] is looked at first, as in [run_async]. *)
Definition handler_of (self : DynamicCLI) (name : string)
    : option (Callable * bool) :=
  match dict_get name (commands self) with
  | Some handler => Some (handler, false)
  | None =>
      match dict_get name (async_commands self) with
      | Some handler => Some (handler, true)
      | None => None
      end
  end.

(** What the registration code keeps true of the object, whether its calls
    return or raise. *)
Record consistent (self : DynamicCLI) : Prop := {
  names_unique : NoDup (names self);
  alias_targets : forall a n, In (a, n) (alias_map self) -> In n (primary self);
  cache_sound : forall l, _all_commands_cached self = Some l ->
                  strictly_ascending l /\ incl l (primary self)
}.

(** The objects a program can hold: a fresh one, and the object after a call
    of a public method, whether the call returned or raised. *)
Inductive reachable : DynamicCLI -> Prop :=
| reach_init : reachable init
| reach_register self name handler async_handler aliases doc :
    reachable self ->
    reachable (fst (register_command self name handler async_handler aliases doc))
| reach_list self :
    reachable self -> reachable (fst (list_commands self))
| reach_complete self prefix :
    reachable self -> reachable (fst (complete_command self prefix))
| reach_run self args :
    reachable self -> reachable (fst (fst (run_async self args))).

(** The arguments of one call of [register_command]. *)
Record registration : Type := mkRegistration {
  reg_name : string;
  reg_handler : Callable;
  reg_async : bool;
  reg_aliases : option (list string);
  reg_doc : option string
}.

Definition register (self : DynamicCLI) (r : registration)
    : DynamicCLI * completion :=
  register_command self (reg_name r) (reg_handler r) (reg_async r)
    (reg_aliases r) (reg_doc r).

(** The aliases a call asks for. *)
Definition aliases_of (r : registration) : list string :=
  match reg_aliases r with
  | Some al => al
  | None => []
  end.

(** The object after a sequence of calls whose [ValueError]s are caught by
    the caller. *)
Fixpoint register_seq (self : DynamicCLI) (rs : list registration) : DynamicCLI :=
  match rs with
  | [] => self
  | r :: rs' => register_seq (fst (register self r)) rs'
  end.

(** The object after a sequence of calls that all return; [None] when one of
    them raises. *)
Fixpoint register_all (self : DynamicCLI) (rs : list registration)
    : option DynamicCLI :=
  match rs with
  | [] => Some self
  | r :: rs' =>
      match register self r with
      | (self', Done) => register_all self' rs'
      | (_, Raised _) => None
      end
  end.

(** ** Reading a run *)

(** The handler calls of a trace, in order: command and arguments. *)
Definition invocations (trace : list event) : list (string * list string) :=
  flat_map (fun e => match e with
                     | Invoke c _ a => [(c, a)]
                     | Print _ => []
                     end) trace.

(** The lines a trace prints, in order. *)
Definition printed (trace : list event) : list string :=
  flat_map (fun e => match e with
                     | Print s => [s]
                     | Invoke _ _ _ => []
                     end) trace.

(** The Dispatch state of the loop: there is a first token, it is not the
    help flag, it resolves, and the second token, when there is one, is not
    the help flag.  The value is the resolved name. *)
Definition dispatch_state (self : DynamicCLI) (args : list string)
    : option string :=
  match args with
  | [] => None
  | command_name :: rest =>
      if String.eqb command_name "--help" then None
      else
        match _resolve_command self command_name with
        | None => None
        | Some resolved =>
            match rest with
            | a1 :: _ => if String.eqb a1 "--help" then None else Some resolved
            | [] => Some resolved
            end
        end
  end.

(** The trace and the end of a run. *)
Definition trace_of (run : DynamicCLI * list event * termination) : list event :=
  snd (fst run).

Definition end_of (run : DynamicCLI * list event * termination) : termination :=
  snd run.

(** The line [run_async] prints when a handler raises an [Exception]. *)
Definition failure_line (resolved_command e : string) : string :=
  fstring ["Command '"; resolved_command; "' failed with error: "; e].

(** The trace of one handler call in the Dispatch state, and its end. *)
Definition dispatch_trace (resolved : string) (is_async : bool)
    (handler : Callable) (command_args : list string) : list event :=
  Invoke resolved is_async command_args :: map Print (fst (handler command_args)) ++
  match snd (handler command_args) with
  | Raises e => [Print (failure_line resolved e)]
  | _ => []
  end.

Definition dispatch_end (handler : Callable) (command_args : list string)
    : termination :=
  match snd (handler command_args) with
  | Returns => Return 0
  | Raises _ => Return 1
  | RaisesBase e => Propagates e
  end.

(** The notices of the Empty and Unresolved states. *)
Definition no_command_notice : string := fstring ["No command provided."; nl].

Definition unknown_command_notice (command_name : string) : string :=
  fstring ["Unknown command or alias: '"; command_name; "'"; nl].

(** A handler that is interrupted from the keyboard. *)
Definition interrupted : Callable := fun _ => ([], RaisesBase "KeyboardInterrupt").

(** The objects of the scenarios below. *)
Definition greet_cli : DynamicCLI :=
  fst (register_command init "greet" greet false None None).

Definition crash_cli : DynamicCLI :=
  fst (register_command init "crash" fails false None None).

Definition quit_cli : DynamicCLI :=
  fst (register_command init "quit" exits false None None).

Definition wait_cli : DynamicCLI :=
  fst (register_command init "wait" interrupted true None None).

Definition help_named_cli : DynamicCLI :=
  fst (register_command init "--help" noop false None None).

Definition cli_a : DynamicCLI :=
  fst (register_command init "a" noop false None None).

Definition reg_a : registration := mkRegistration "a" noop false None None.

(** A fresh name with an alias that collides with the command [a]. *)
Definition reg_b_alias_a : registration :=
  mkRegistration "b" noop false (Some ["a"]) None.

(** [add] with its two aliases, as in [examples/command_aliases.py]. *)
Definition reg_add : registration :=
  mkRegistration "add" noop false (Some ["sum"; "plus"]) (Some "Adds two numbers and prints the result.").

Definition reg_greet : registration :=
  mkRegistration "greet" greet false None None.

(** ** The blocking entry point *)

(** How [run] ends: [sys.exit(exit_code)] raises SystemExit with the code of
    the run, or an exception that left [run_async] leaves [run] too. *)
Inductive process_end : Type :=
| SystemExit (code : Z)
| Uncaught (e : string).

(** [run(args)], with [sys.argv] as [argv]: [asyncio.run] gives back what the
    coroutine returns or raises.  Only [None] is replaced by the arguments of
    the command line; an empty list is kept. *)
Definition run (self : DynamicCLI) (argv : list string)
    (args : option (list string))
    : DynamicCLI * list event * process_end :=
  let args :=
    match args with
    | None => skipn 1 argv
    | Some args => args
    end in
  let '(self', trace, t) := run_async self args in
  (self', trace,
   match t with
   | Return exit_code => SystemExit exit_code
   | Propagates e => Uncaught e
   end).

(** The aliases a call asks for, as a list. *)
Definition alias_list (aliases : option (list string)) : list string :=
  match aliases with
  | Some al => al
  | None => []
  end.

(** The line of the alias loop's ValueError. *)
Definition alias_conflict (alias : string) : exn :=
  ValueError (fstring
    ["Alias '"; alias; "' conflicts with an existing command or alias."]).

(** The object of [examples/command_aliases.py]: [add] with the aliases
    [sum] and [plus]. *)
Definition add_cli : DynamicCLI := register_seq init [reg_add].

(** Every primary name has a doc, and the doc is not empty. *)
Definition documented (self : DynamicCLI) : Prop :=
  forall n, In n (primary self) ->
    exists d, dict_get n (docs self) = Some d /\ d <> EmptyString.


(** The line of the global help for a registration: two spaces, the name,
    the tag of the handler table, and the aliases asked for when there are
    some. *)
Definition registered_line (r : registration) : string :=
  fstring ["  "; reg_name r; " ";
           if reg_async r then "(async)" else "(sync)";
           match aliases_of r with
           | [] => EmptyString
           | al => fstring [" (aliases: "; String.concat ", " al; ")"]
           end].

(** An asynchronous registration with a doc, as the one of [countdown] in
    [examples/basic_usage.py]; its handler here returns at once. *)
Definition reg_countdown : registration :=
  mkRegistration "countdown" noop true None (Some "Counts down.").


(** ** The example [examples/command_suggestions.py] *)

(** [str(n)] of a count. *)
Definition decimal (n : nat) : string :=
  DecimalString.NilEmpty.string_of_uint (Nat.to_uint n).

(** A function without parameters that prints one line: called with
    arguments, it raises the TypeError of the interpreter. *)
Definition no_parameters (fname line : string) : Callable := fun args =>
  match args with
  | [] => ([line], Returns)
  | _ :: _ =>
      ([], Raises (fstring
             [fname; "() takes 0 positional arguments but ";
              decimal (length args);
              if Nat.eqb (length args) 1 then " was given" else " were given"]))
  end.

Definition reg_start : registration :=
  mkRegistration "start" (no_parameters "start" "Process started.") false None
    (Some "Starts the process.").

Definition reg_stop : registration :=
  mkRegistration "stop" (no_parameters "stop" "Process stopped.") false None
    (Some "Stops the process.").

Definition reg_restart : registration :=
  mkRegistration "restart" (no_parameters "restart" "Process restarted.") false None
    (Some "Restarts the process.").

(** The object of the example after its three registrations. *)
Definition suggestions_cli : DynamicCLI :=
  register_seq init [reg_start; reg_stop; reg_restart].

(** The main block of the example on the tokens of the line read:
    what it prints, and how the process ends when [cli.run] is called. *)
Definition suggestions_main (self : DynamicCLI) (args : list string)
    : DynamicCLI * list event * option process_end :=
  let command_name :=
    match args with
    | a0 :: _ => a0
    | [] => EmptyString
    end in
  let '(self1, cmds) := list_commands self in
  if negb (existsb (fun c => String.eqb c command_name) cmds) then
    let '(self2, suggestions) := complete_command self1 command_name in
    match suggestions with
    | _ :: _ =>
        (self2,
         [Print (fstring ["Did you mean: "; String.concat ", " suggestions; "?"])],
         None)
    | [] => (self2, [Print "Unknown command."], None)
    end
  else
    let '(self2, trace, e) := run self1 [] (Some args) in
    (self2, trace, Some e).
(** ** Facts about dictionaries *)

Section DictFacts.
Context {V : Type}.
Implicit Types (d : dict V) (k : string) (v : V).

Lemma dict_get_Some_In d k v : dict_get k d = Some v -> In (k, v) d.
Proof.
  induction d as [|[k' v'] d IH]; simpl; [discriminate|].
  destruct (String.eqb_spec k' k) as [->|Hne]; intros H.
  - injection H as ->. now left.
  - right. now apply IH.
Qed.

Lemma dict_get_None d k : dict_get k d = None <-> ~ In k (dict_keys d).
Proof.
  induction d as [|[k' v'] d IH]; simpl.
  - tauto.
  - destruct (String.eqb_spec k' k) as [->|Hne].
    + split; [discriminate | intros H; exfalso; apply H; now left].
    + rewrite IH. tauto.
Qed.

Lemma dict_in_true d k : dict_in k d = true <-> In k (dict_keys d).
Proof.
  unfold dict_in. destruct (dict_get k d) eqn:E.
  - split; [intros _ | reflexivity].
    apply dict_get_Some_In in E. now apply (in_map fst) in E.
  - apply dict_get_None in E. split; [discriminate | tauto].
Qed.

Lemma dict_in_false d k : dict_in k d = false <-> ~ In k (dict_keys d).
Proof.
  rewrite <- dict_in_true. destruct (dict_in k d); split; congruence.
Qed.

Lemma dict_in_get d k : dict_in k d = true <-> exists v, dict_get k d = Some v.
Proof.
  unfold dict_in. destruct (dict_get k d) as [v|].
  - split; [eauto | reflexivity].
  - split; [discriminate | intros [v H]; discriminate].
Qed.

(** Assigning to a key that is absent appends the item. *)
Lemma dict_set_fresh d k v : dict_in k d = false -> dict_set k v d = d ++ [(k, v)].
Proof.
  rewrite dict_in_false.
  induction d as [|[k' v'] d IH]; simpl; intros H; [reflexivity|].
  destruct (String.eqb_spec k' k) as [->|Hne]; [tauto|].
  f_equal. apply IH. tauto.
Qed.

Lemma dict_keys_app d1 d2 : dict_keys (d1 ++ d2) = dict_keys d1 ++ dict_keys d2.
Proof. apply map_app. Qed.

(** With unique keys, an item of the dict is what [get] finds. *)
Lemma dict_get_In d k v : NoDup (dict_keys d) -> In (k, v) d -> dict_get k d = Some v.
Proof.
  induction d as [|[k' v'] d IH]; simpl; intros Hnd Hin; [tauto|].
  inversion Hnd as [|? ? Hk' Hnd']; subst.
  destruct Hin as [Heq|Hin].
  - injection Heq as -> ->. now rewrite String.eqb_refl.
  - destruct (String.eqb_spec k' k) as [->|Hne].
    + exfalso. apply Hk'. now apply (in_map fst) in Hin.
    + now apply IH.
Qed.
End DictFacts.

(** ** Facts about the order of strings and about [sorted] *)


Lemma ascii_compare_refl a : Ascii.compare a a = Eq.
Proof. unfold Ascii.compare. apply N.compare_refl. Qed.

Lemma ascii_compare_lt_trans a b c :
  Ascii.compare a b = Lt -> Ascii.compare b c = Lt -> Ascii.compare a c = Lt.
Proof.
  unfold Ascii.compare. rewrite !N.compare_lt_iff. lia.
Qed.

Lemma string_compare_refl s : String.compare s s = Eq.
Proof.
  induction s as [|a s IH]; simpl; [reflexivity|].
  now rewrite ascii_compare_refl.
Qed.

Lemma string_compare_lt_trans s1 : forall s2 s3,
  String.compare s1 s2 = Lt -> String.compare s2 s3 = Lt ->
  String.compare s1 s3 = Lt.
Proof.
  induction s1 as [|a s1 IH]; intros [|b s2] [|c s3]; simpl;
    try discriminate; try reflexivity.
  destruct (Ascii.compare a b) eqn:Eab; try discriminate;
    destruct (Ascii.compare b c) eqn:Ebc; try discriminate; intros H1 H2.
  - apply Ascii.compare_eq_iff in Eab, Ebc. subst.
    rewrite ascii_compare_refl. eauto.
  - apply Ascii.compare_eq_iff in Eab. subst. now rewrite Ebc.
  - apply Ascii.compare_eq_iff in Ebc. subst. now rewrite Eab.
  - now rewrite (ascii_compare_lt_trans _ _ _ Eab Ebc).
Qed.

Lemma le_string_refl x : le_string x x.
Proof. unfold le_string, String.leb. now rewrite string_compare_refl. Qed.

Lemma le_string_cases x y : le_string x y <-> x = y \/ lt_string x y.
Proof.
  unfold le_string, lt_string, String.leb, String.ltb.
  destruct (String.compare x y) eqn:E.
  - apply String.compare_eq_iff in E. intuition.
  - intuition.
  - split; [discriminate|]. intros [->|H]; [|discriminate].
    now rewrite string_compare_refl in E.
Qed.

Lemma lt_string_trans x y z : lt_string x y -> lt_string y z -> lt_string x z.
Proof.
  unfold lt_string, String.ltb.
  destruct (String.compare x y) eqn:E1; try discriminate.
  destruct (String.compare y z) eqn:E2; try discriminate.
  now rewrite (string_compare_lt_trans _ _ _ E1 E2).
Qed.

Lemma lt_string_irrefl x : ~ lt_string x x.
Proof. unfold lt_string, String.ltb. now rewrite string_compare_refl. Qed.

Lemma le_string_trans x y z : le_string x y -> le_string y z -> le_string x z.
Proof.
  rewrite !le_string_cases. intros [->|H1] [->|H2]; auto.
  right. eapply lt_string_trans; eauto.
Qed.

Lemma le_string_total x y : le_string x y \/ le_string y x.
Proof. apply String.leb_total. Qed.

Lemma le_string_antisym x y : le_string x y -> le_string y x -> x = y.
Proof. apply String.leb_antisym. Qed.


Lemma insert_sorted_perm x l : Permutation (x :: l) (insert_sorted x l).
Proof.
  induction l as [|y l IH]; simpl; [reflexivity|].
  destruct (String.leb x y); [reflexivity|].
  rewrite perm_swap. now constructor.
Qed.

Lemma sorted_perm l : Permutation l (sorted l).
Proof.
  induction l as [|x l IH]; simpl; [constructor|].
  rewrite <- insert_sorted_perm. now constructor.
Qed.

Lemma sorted_In l x : In x (sorted l) <-> In x l.
Proof.
  split; apply Permutation_in; [symmetry|]; apply sorted_perm.
Qed.

Lemma sorted_NoDup l : NoDup l -> NoDup (sorted l).
Proof. apply Permutation_NoDup, sorted_perm. Qed.

Lemma insert_sorted_ascending x l : ascending l -> ascending (insert_sorted x l).
Proof.
  unfold ascending.
  induction l as [|y l IH]; simpl; intros Hl.
  - repeat constructor.
  - inversion Hl as [|? ? Hl' Hy]; subst.
    destruct (String.leb x y) eqn:E.
    + constructor; [assumption|]. constructor; [exact E|].
      eapply Forall_impl; [|exact Hy]. intros z Hz.
      eapply le_string_trans; eauto.
    + constructor; [now apply IH|].
      assert (Hyx : le_string y x).
      { destruct (le_string_total x y) as [H|H]; [unfold le_string in H; congruence | exact H]. }
      rewrite Forall_forall in *. intros z Hz.
      apply (Permutation_in _ (Permutation_sym (insert_sorted_perm x l))) in Hz.
      destruct Hz as [<-|Hz]; auto.
Qed.

Lemma sorted_ascending l : ascending (sorted l).
Proof.
  induction l as [|x l IH]; simpl; [constructor|].
  now apply insert_sorted_ascending.
Qed.

Lemma ascending_NoDup_strict l : ascending l -> NoDup l -> strictly_ascending l.
Proof.
  unfold ascending, strictly_ascending.
  induction 1 as [|x l Hl IH Hx]; intros Hnd; [constructor|].
  inversion Hnd as [|? ? Hnx Hnd']; subst.
  constructor; [now apply IH|].
  rewrite Forall_forall in *. intros y Hy.
  destruct (proj1 (le_string_cases x y) (Hx y Hy)) as [->|H]; tauto.
Qed.

Lemma strictly_ascending_NoDup l : strictly_ascending l -> NoDup l.
Proof.
  induction 1 as [|x l Hl IH Hx]; constructor; [|assumption].
  intros Hin. rewrite Forall_forall in Hx.
  exact (lt_string_irrefl x (Hx x Hin)).
Qed.

(** An ascending list is the only ascending arrangement of its elements, so
    [sorted] is what every correct sort returns. *)
Lemma ascending_perm_eq l1 : forall l2,
  ascending l1 -> ascending l2 -> Permutation l1 l2 -> l1 = l2.
Proof.
  induction l1 as [|x l1 IH]; intros l2 H1 H2 Hp.
  - now apply Permutation_nil in Hp.
  - destruct l2 as [|y l2]; [now apply Permutation_sym, Permutation_nil in Hp|].
    inversion H1 as [|? ? H1' Hx]; inversion H2 as [|? ? H2' Hy]; subst.
    rewrite Forall_forall in Hx, Hy.
    assert (Exy : x = y).
    { assert (Hxin : In x (y :: l2)) by (eapply Permutation_in; [exact Hp | now left]).
      assert (Hyin : In y (x :: l1)) by (eapply Permutation_in; [symmetry; exact Hp | now left]).
      destruct Hxin as [->|Hxin]; [reflexivity|].
      destruct Hyin as [->|Hyin]; [reflexivity|].
      apply le_string_antisym; auto. }
    subst y. f_equal. apply IH; auto.
    now apply Permutation_cons_inv in Hp.
Qed.

Lemma sorted_unique l l' : Permutation l l' -> ascending l' -> sorted l = l'.
Proof.
  intros Hp Hl'. apply ascending_perm_eq; [apply sorted_ascending | exact Hl' |].
  rewrite <- Hp. symmetry. apply sorted_perm.
Qed.

(** ** The registry stays consistent *)

Lemma taken_true self s : taken self s = true <-> In s (names self).
Proof.
  unfold taken, names, primary.
  rewrite !orb_true_iff, !dict_in_true, !in_app_iff. tauto.
Qed.

Lemma taken_false self s : taken self s = false <-> ~ In s (names self).
Proof.
  rewrite <- taken_true. destruct (taken self s); split; congruence.
Qed.

Lemma NoDup_add {A : Type} (x : A) l l' :
  Permutation (x :: l) l' -> NoDup l -> ~ In x l -> NoDup l'.
Proof.
  intros Hp Hnd Hx. eapply Permutation_NoDup; [exact Hp|]. now constructor.
Qed.

Lemma consistent_init : consistent init.
Proof.
  split; simpl.
  - constructor.
  - tauto.
  - discriminate.
Qed.

(** One turn of the alias loop on a free alias. *)
Lemma consistent_add_alias self alias name :
  consistent self -> taken self alias = false -> In name (primary self) ->
  consistent (set_alias_map self (dict_set alias name (alias_map self))).
Proof.
  intros [Hnd Htg Hc] Hfree Hname.
  assert (Hin : dict_in alias (alias_map self) = false).
  { unfold taken in Hfree. rewrite !orb_false_iff in Hfree. tauto. }
  apply taken_false in Hfree.
  split; unfold names, primary in *; simpl; rewrite ?(dict_set_fresh _ _ _ Hin).
  - rewrite dict_keys_app. simpl. rewrite app_assoc.
    eapply NoDup_add; [apply Permutation_cons_append | exact Hnd | exact Hfree].
  - intros a n Ha. apply in_app_or in Ha. destruct Ha as [Ha|[Ha|[]]].
    + eauto.
    + injection Ha as <- <-. exact Hname.
  - exact Hc.
Qed.

Lemma install_aliases_fields self name aliases :
  let self' := fst (install_aliases self name aliases) in
  commands self' = commands self /\ async_commands self' = async_commands self /\
  docs self' = docs self /\ _all_commands_cached self' = _all_commands_cached self.
Proof.
  revert self. induction aliases as [|a al IH]; intros self; simpl; [tauto|].
  destruct (taken self a); simpl; [tauto|].
  specialize (IH (set_alias_map self (dict_set a name (alias_map self)))).
  simpl in IH. exact IH.
Qed.

Lemma install_aliases_consistent self name aliases :
  consistent self -> In name (primary self) ->
  consistent (fst (install_aliases self name aliases)).
Proof.
  revert self. induction aliases as [|a al IH]; intros self Hc Hn; simpl; [exact Hc|].
  destruct (taken self a) eqn:E; simpl; [exact Hc|].
  apply IH; [now apply consistent_add_alias | exact Hn].
Qed.

Lemma register_command_unfold self name handler async_handler aliases doc :
  register_command self name handler async_handler aliases doc =
  if taken self name then
    (self, Raised (ValueError (fstring
       ["Command or alias '"; name; "' is already registered."])))
  else
    let self2 := store_command self name handler async_handler doc in
    let '(self3, r) :=
      match aliases with
      | Some ((_ :: _) as al) => install_aliases self2 name al
      | _ => (self2, Done)
      end in
    match r with
    | Raised e => (self3, Raised e)
    | Done => (set_cache self3 None, Done)
    end.
Proof. reflexivity. Qed.

(** Skipping the loop on an empty [aliases] is running it zero times. *)
Lemma aliases_loop self name aliases :
  match aliases with
  | Some ((_ :: _) as al) => install_aliases self name al
  | _ => (self, Done)
  end = install_aliases self name (match aliases with Some al => al | None => [] end).
Proof. destruct aliases as [[|a al]|]; reflexivity. Qed.

Lemma primary_store_command self name handler async_handler doc :
  taken self name = false ->
  Permutation (name :: primary self)
              (primary (store_command self name handler async_handler doc)).
Proof.
  intros Hfree. unfold taken in Hfree. rewrite !orb_false_iff in Hfree.
  destruct Hfree as [[Hc Ha] _].
  unfold store_command, primary. destruct async_handler; simpl.
  - rewrite (dict_set_fresh _ _ _ Ha), dict_keys_app. simpl.
    rewrite app_assoc. apply Permutation_cons_append.
  - rewrite (dict_set_fresh _ _ _ Hc), dict_keys_app. simpl.
    rewrite <- app_assoc. simpl. apply Permutation_middle.
Qed.

Lemma store_command_fields self name handler async_handler doc :
  let self' := store_command self name handler async_handler doc in
  alias_map self' = alias_map self /\
  _all_commands_cached self' = _all_commands_cached self.
Proof. unfold store_command. destruct async_handler; simpl; tauto. Qed.

Lemma store_command_consistent self name handler async_handler doc :
  consistent self -> taken self name = false ->
  consistent (store_command self name handler async_handler doc).
Proof.
  intros [Hnd Htg Hc] Hfree.
  pose proof (primary_store_command self name handler async_handler doc Hfree) as Hp.
  destruct (store_command_fields self name handler async_handler doc) as [Hal Hca].
  apply taken_false in Hfree.
  split; unfold names in *.
  - rewrite Hal. eapply NoDup_add; [|exact Hnd | exact Hfree].
    change (name :: primary self ++ dict_keys (alias_map self))
      with ((name :: primary self) ++ dict_keys (alias_map self)).
    now apply Permutation_app_tail.
  - rewrite Hal. intros a n Ha.
    eapply Permutation_in; [exact Hp|]. right. eauto.
  - rewrite Hca. intros l Hl. destruct (Hc l Hl) as [Hs Hi]. split; [exact Hs|].
    intros x Hx. eapply Permutation_in; [exact Hp|]. right. now apply Hi.
Qed.

Lemma set_cache_None_consistent self : consistent self -> consistent (set_cache self None).
Proof.
  intros [Hnd Htg Hc]. split; simpl; try assumption. discriminate.
Qed.

Lemma register_command_consistent self name handler async_handler aliases doc :
  consistent self ->
  consistent (fst (register_command self name handler async_handler aliases doc)).
Proof.
  intros Hc. rewrite register_command_unfold.
  destruct (taken self name) eqn:Hfree; [exact Hc|].
  cbv zeta. rewrite aliases_loop.
  set (self2 := store_command self name handler async_handler doc).
  assert (H2 : consistent self2) by now apply store_command_consistent.
  assert (Hn : In name (primary self2)).
  { eapply Permutation_in; [now apply primary_store_command|]. now left. }
  pose proof (install_aliases_consistent self2 name
                (match aliases with Some al => al | None => [] end) H2 Hn) as H3.
  destruct (install_aliases self2 name _) as [self3 [|e]]; simpl in *.
  - now apply set_cache_None_consistent.
  - exact H3.
Qed.

Lemma primary_NoDup self : consistent self -> NoDup (primary self).
Proof.
  intros [Hnd _ _]. unfold names in Hnd. now apply NoDup_app_remove_r in Hnd.
Qed.

Lemma list_commands_consistent self :
  consistent self -> consistent (fst (list_commands self)).
Proof.
  intros Hc. unfold list_commands.
  destruct (_all_commands_cached self) as [l|] eqn:E; simpl; [exact Hc|].
  pose proof (primary_NoDup self Hc) as Hp.
  destruct Hc as [Hnd Htg _]. split; simpl; try assumption.
  intros l Hl. injection Hl as <-. split.
  - apply ascending_NoDup_strict; [apply sorted_ascending | apply sorted_NoDup; exact Hp].
  - intros x Hx. apply (proj1 (sorted_In _ _)) in Hx. exact Hx.
Qed.

Lemma complete_command_state self prefix :
  fst (complete_command self prefix) = fst (list_commands self).
Proof.
  unfold complete_command. now destruct (list_commands self).
Qed.

Lemma show_help_state self : fst (show_help self) = fst (list_commands self).
Proof.
  unfold show_help. now destruct (list_commands self).
Qed.

(** A run leaves the object as it is, or fills the cache. *)
Lemma run_async_state self args :
  fst (fst (run_async self args)) = self \/
  fst (fst (run_async self args)) = fst (list_commands self).
Proof.
  pose proof (show_help_state self) as Hs.
  unfold run_async. destruct args as [|a0 rest].
  - destruct (show_help self); simpl in *. now right.
  - destruct (String.eqb a0 "--help").
    + destruct (show_help self); simpl in *. now right.
    + destruct (_resolve_command self a0) as [n|].
      * destruct (String.eqb n EmptyString).
        { destruct (show_help self); simpl in *. now right. }
        destruct (match tl (a0 :: rest) with a1 :: _ => String.eqb a1 "--help" | [] => false end);
          [now left|].
        destruct (dict_get n (commands self)) as [h|].
        { destruct (guarded_call _ _ _ _). now left. }
        destruct (dict_get n (async_commands self)) as [h|].
        { destruct (guarded_call _ _ _ _). now left. }
        destruct (show_help self); simpl in *. now right.
      * destruct (show_help self); simpl in *. now right.
Qed.

Lemma reachable_consistent self : reachable self -> consistent self.
Proof.
  induction 1 as [|self name handler async_handler aliases doc _ IH
                  |self _ IH|self prefix _ IH|self args _ IH].
  - exact consistent_init.
  - now apply register_command_consistent.
  - now apply list_commands_consistent.
  - rewrite complete_command_state. now apply list_commands_consistent.
  - destruct (run_async_state self args) as [-> | ->];
      [exact IH | now apply list_commands_consistent].
Qed.

Lemma NoDup_app_disjoint {A : Type} (l1 l2 : list A) :
  NoDup (l1 ++ l2) -> forall x, In x l1 -> ~ In x l2.
Proof.
  induction l1 as [|y l1 IH]; simpl; intros Hnd x Hx; [tauto|].
  inversion Hnd as [|? ? Hy Hnd']; subst.
  destruct Hx as [->|Hx]; [|now apply IH].
  intros H2. apply Hy, in_or_app. now right.
Qed.

Lemma register_seq_reachable rs : forall self,
  reachable self -> reachable (register_seq self rs).
Proof.
  induction rs as [|r rs IH]; intros self Hr; simpl; [exact Hr|].
  apply IH. unfold register. now constructor.
Qed.

(** Uniqueness and disjointness of the two name spaces, in every object a
    program can hold. *)
Lemma reachable_namespaces self :
  reachable self ->
  NoDup (primary self) /\ NoDup (dict_keys (alias_map self)) /\
  (forall s, In s (primary self) -> ~ In s (dict_keys (alias_map self))).
Proof.
  intros Hr. destruct (reachable_consistent self Hr) as [Hnd _ _].
  unfold names in Hnd. repeat split.
  - now apply NoDup_app_remove_r in Hnd.
  - now apply NoDup_app_remove_l in Hnd.
  - now apply NoDup_app_disjoint.
Qed.

(** ** Resolution *)

Lemma resolve_primary self x : In x (primary self) -> _resolve_command self x = Some x.
Proof.
  unfold primary, _resolve_command. rewrite in_app_iff, <- !dict_in_true.
  intros [->| ->]; [reflexivity | now rewrite orb_true_r].
Qed.

Lemma resolve_alias self a n :
  consistent self -> In (a, n) (alias_map self) -> _resolve_command self a = Some n.
Proof.
  intros [Hnd _ _] Hin. unfold names in Hnd.
  assert (Ha : In a (dict_keys (alias_map self))) by now apply (in_map fst) in Hin.
  assert (Hp : ~ In a (primary self)).
  { intros Hp. exact (NoDup_app_disjoint _ _ Hnd a Hp Ha). }
  unfold primary in Hp. rewrite in_app_iff, <- !dict_in_true in Hp.
  unfold _resolve_command.
  destruct (dict_in a (commands self)); [tauto|].
  destruct (dict_in a (async_commands self)); [tauto|]. simpl.
  apply dict_get_In; [now apply NoDup_app_remove_l in Hnd | exact Hin].
Qed.

Lemma resolve_None self x : ~ In x (names self) -> _resolve_command self x = None.
Proof.
  unfold names, primary, _resolve_command.
  rewrite !in_app_iff, <- !dict_in_true. intros H.
  destruct (dict_in x (commands self)); [tauto|].
  destruct (dict_in x (async_commands self)); [tauto|]. simpl.
  apply dict_get_None. rewrite <- dict_in_true. tauto.
Qed.

(** What [_resolve_command] returns is a primary name, in every object a
    program can hold. *)
Lemma resolve_Some_primary self x n :
  consistent self -> _resolve_command self x = Some n -> In n (primary self).
Proof.
  intros [_ Htg _]. unfold _resolve_command, primary.
  destruct (dict_in x (commands self) || dict_in x (async_commands self)) eqn:E.
  - intros H. injection H as <-.
    rewrite orb_true_iff, !dict_in_true in E. now apply in_or_app.
  - intros H. apply dict_get_Some_In in H. eauto.
Qed.

Lemma handler_of_primary self n :
  In n (primary self) -> exists handler is_async, handler_of self n = Some (handler, is_async).
Proof.
  unfold primary, handler_of. rewrite in_app_iff, <- !dict_in_true, !dict_in_get.
  destruct (dict_get n (commands self)) as [h|]; [eauto|].
  intros [[v H]|[v H]]; [discriminate|]. rewrite H. eauto.
Qed.

(** ** Registrations that return *)

Lemma install_aliases_Done self name aliases self' :
  install_aliases self name aliases = (self', Done) ->
  alias_map self' = alias_map self ++ map (fun a => (a, name)) aliases /\
  (forall a, In a aliases -> taken self a = false).
Proof.
  revert self. induction aliases as [|a al IH]; intros self; simpl.
  - intros H. injection H as <-. rewrite app_nil_r. tauto.
  - destruct (taken self a) eqn:E; [discriminate|]. intros H.
    assert (Hin : dict_in a (alias_map self) = false).
    { unfold taken in E. rewrite !orb_false_iff in E. tauto. }
    destruct (IH _ H) as [Hm Hf]. simpl in Hm.
    rewrite (dict_set_fresh _ _ _ Hin), <- app_assoc in Hm. split; [exact Hm|].
    intros a' [<-|Ha']; [exact E|].
    specialize (Hf a' Ha'). rewrite taken_false in *. intros Hx. apply Hf.
    unfold names, primary in *. simpl.
    rewrite (dict_set_fresh _ _ _ Hin), dict_keys_app.
    rewrite !in_app_iff in *. tauto.
Qed.

Lemma register_command_Done self name handler async_handler aliases doc self' :
  register_command self name handler async_handler aliases doc = (self', Done) ->
  taken self name = false /\
  Permutation (name :: primary self) (primary self') /\
  alias_map self' =
    alias_map self ++
    map (fun a => (a, name)) (match aliases with Some al => al | None => [] end) /\
  _all_commands_cached self' = None.
Proof.
  rewrite register_command_unfold.
  destruct (taken self name) eqn:Hfree; [discriminate|].
  cbv zeta. rewrite aliases_loop.
  set (self2 := store_command self name handler async_handler doc).
  pose proof (primary_store_command self name handler async_handler doc Hfree) as Hp.
  destruct (store_command_fields self name handler async_handler doc) as [Hal _].
  fold self2 in Hp, Hal.
  pose proof (install_aliases_fields self2 name
                (match aliases with Some al => al | None => [] end)) as Hf.
  destruct (install_aliases self2 name _) as [self3 [|e]] eqn:E; [|discriminate].
  intros H. injection H as <-. simpl in Hf. destruct Hf as (Hc & Ha & _).
  apply install_aliases_Done in E. destruct E as [Hm _].
  split; [reflexivity|]. split; [|split; [|reflexivity]].
  - unfold primary in *. simpl. now rewrite Hc, Ha.
  - simpl. now rewrite Hm, Hal.
Qed.

Lemma register_all_consistent rs : forall self self',
  consistent self -> register_all self rs = Some self' -> consistent self'.
Proof.
  induction rs as [|r rs IH]; intros self self' Hc; simpl.
  - intros H. now injection H as <-.
  - pose proof (register_command_consistent self (reg_name r) (reg_handler r)
                  (reg_async r) (reg_aliases r) (reg_doc r) Hc) as H1.
    fold (register self r) in H1.
    destruct (register self r) as [self1 [|e]]; [|discriminate]. eauto.
Qed.

(** The names and the alias table after calls that all returned: what was
    there before, and what the calls asked for. *)
Lemma register_all_effects rs : forall self self',
  register_all self rs = Some self' ->
  (forall x, In x (primary self') <->
             In x (primary self) \/ In x (map reg_name rs)) /\
  (forall a n, In (a, n) (alias_map self') <->
               In (a, n) (alias_map self) \/
               exists r, In r rs /\ In a (aliases_of r) /\ n = reg_name r).
Proof.
  induction rs as [|r rs IH]; intros self self'; simpl.
  - intros H. injection H as <-. split; intros; [tauto|].
    split; [tauto|]. intros [H|(r & [] & _)]. exact H.
  - destruct (register self r) as [self1 [|e]] eqn:E; [|discriminate].
    intros H. destruct (IH _ _ H) as [IH1 IH2]. clear IH H.
    unfold register in E. apply register_command_Done in E.
    destruct E as (_ & Hp & Hm & _). fold (aliases_of r) in Hm. split.
    + intros x. rewrite IH1.
      assert (Hx : In x (primary self1) <-> reg_name r = x \/ In x (primary self)).
      { split; intros Hx.
        - apply (Permutation_in _ (Permutation_sym Hp)) in Hx. exact Hx.
        - apply (Permutation_in _ Hp). exact Hx. }
      rewrite Hx. tauto.
    + intros a n. rewrite IH2, Hm, in_app_iff, in_map_iff. split.
      * intros [[H|(a' & Heq & Ha')]|(r' & Hr' & H)].
        -- now left.
        -- injection Heq as <- <-. right. exists r. auto.
        -- right. exists r'. tauto.
      * intros [H|(r' & [<-|Hr'] & Ha' & ->)].
        -- tauto.
        -- left. right. exists a. auto.
        -- right. exists r'. tauto.
Qed.

(** C5.  After a sequence of registrations that all returned, starting from
    a fresh object: the primary name of every registration resolves to
    itself, every alias of the registration resolves to that primary name,
    and a string that is neither a registered primary name nor a registered
    alias resolves to nothing. *)
Theorem resolve_after_successful_registrations
    (rs : list registration) (self : DynamicCLI) :
  register_all init rs = Some self ->
  (forall r, In r rs ->
     _resolve_command self (reg_name r) = Some (reg_name r) /\
     forall a, In a (aliases_of r) -> _resolve_command self a = Some (reg_name r)) /\
  (forall x, (forall r, In r rs -> x <> reg_name r /\ ~ In x (aliases_of r)) ->
     _resolve_command self x = None).
Proof.
  intros Hall.
  pose proof (register_all_consistent rs init self consistent_init Hall) as Hc.
  destruct (register_all_effects rs init self Hall) as [Hp Ha]. split.
  - intros r Hr. split.
    + apply resolve_primary, Hp. right. now apply in_map.
    + intros a Hin. apply resolve_alias; [exact Hc|].
      apply Ha. right. exists r. auto.
  - intros x Hx. apply resolve_None. unfold names. rewrite in_app_iff.
    intros [H|H].
    + apply Hp in H. destruct H as [[]|H].
      apply in_map_iff in H. destruct H as (r & <- & Hr).
      now destruct (Hx r Hr).
    + apply in_map_iff in H. destruct H as ([a n] & <- & Hin). simpl in *.
      apply Ha in Hin. destruct Hin as [[]|(r & Hr & Hin & _)].
      now destruct (Hx r Hr).
Qed.

(** C6.  After every sequence of [register_command] calls on a fresh object,
    those that raise included, the primary names (synchronous and
    asynchronous together) are pairwise distinct, the aliases are pairwise
    distinct, and no primary name is an alias. *)
Theorem namespaces_disjoint_after_any_calls (rs : list registration) :
  let self := register_seq init rs in
  NoDup (primary self) /\ NoDup (dict_keys (alias_map self)) /\
  (forall s, In s (primary self) -> ~ In s (dict_keys (alias_map self))).
Proof.
  apply reachable_namespaces, register_seq_reachable. constructor.
Qed.

(** ** The dispatch loop *)

Lemma guarded_call_dispatch resolved is_async (handler : Callable) command_args :
  guarded_call resolved is_async (handler command_args) command_args =
  (dispatch_trace resolved is_async handler command_args,
   dispatch_end handler command_args).
Proof.
  unfold guarded_call, dispatch_trace, dispatch_end, failure_line.
  destruct (handler command_args) as [lines [|e|e]]; simpl;
    rewrite ?app_nil_r; reflexivity.
Qed.

Lemma dispatch_state_inv self args resolved :
  dispatch_state self args = Some resolved ->
  exists command_name rest,
    args = command_name :: rest /\ String.eqb command_name "--help" = false /\
    _resolve_command self command_name = Some resolved /\
    match rest with a1 :: _ => String.eqb a1 "--help" | [] => false end = false.
Proof.
  unfold dispatch_state. destruct args as [|a0 rest]; [discriminate|].
  destruct (String.eqb a0 "--help") eqn:E0; [discriminate|].
  destruct (_resolve_command self a0) as [n|] eqn:En; [|discriminate].
  intros H. exists a0, rest.
  destruct rest as [|a1 rest'].
  - injection H as <-. auto.
  - destruct (String.eqb a1 "--help") eqn:E1; [discriminate|].
    injection H as <-. auto.
Qed.

(** In the Dispatch state, with a non-empty resolved name, a run is one
    guarded call of the stored handler on the tokens after the first. *)
Lemma run_async_dispatch self args resolved handler is_async :
  dispatch_state self args = Some resolved -> resolved <> EmptyString ->
  handler_of self resolved = Some (handler, is_async) ->
  run_async self args =
  (self, dispatch_trace resolved is_async handler (skipn 1 args),
   dispatch_end handler (skipn 1 args)).
Proof.
  intros Hd Hne Hh. apply dispatch_state_inv in Hd.
  destruct Hd as (a0 & rest & -> & E0 & En & E1).
  apply String.eqb_neq in Hne. unfold run_async. rewrite E0, En, Hne.
  simpl tl. rewrite E1. simpl skipn. unfold handler_of in Hh.
  unfold _execute_sync, _execute_async.
  destruct (dict_get resolved (commands self)) as [h|].
  - injection Hh as <- <-. now rewrite guarded_call_dispatch.
  - destruct (dict_get resolved (async_commands self)) as [h|]; [|discriminate].
    injection Hh as <- <-. now rewrite guarded_call_dispatch.
Qed.

Lemma invocations_prints lines : invocations (map Print lines) = [].
Proof. induction lines; simpl; auto. Qed.

Lemma invocations_dispatch_trace resolved is_async handler command_args :
  invocations (dispatch_trace resolved is_async handler command_args) =
  [(resolved, command_args)].
Proof.
  unfold dispatch_trace, invocations. simpl. f_equal.
  rewrite flat_map_app. fold (invocations (map Print (fst (handler command_args)))).
  rewrite invocations_prints. simpl.
  now destruct (snd (handler command_args)).
Qed.

(** What resolves in a reachable object has a stored handler. *)
Lemma resolved_has_handler self command_name resolved :
  reachable self -> _resolve_command self command_name = Some resolved ->
  exists handler is_async, handler_of self resolved = Some (handler, is_async).
Proof.
  intros Hr Hres. apply handler_of_primary.
  eapply resolve_Some_primary; [now apply reachable_consistent | exact Hres].
Qed.

Lemma dispatch_state_has_handler self args resolved :
  reachable self -> dispatch_state self args = Some resolved ->
  exists handler is_async, handler_of self resolved = Some (handler, is_async).
Proof.
  intros Hr Hd. apply dispatch_state_inv in Hd.
  destruct Hd as (a0 & rest & _ & _ & En & _).
  eapply resolved_has_handler; eauto.
Qed.

(** C2, as the code has it.  In the Dispatch state, when the resolved name
    is not the empty string, the stored handler is called exactly once, with
    the tokens of [args] from index 1 onward (not from index 2); the run
    returns 0 when the handler returns and 1 when it raises an
    [Exception]. *)
Theorem dispatch_passes_tokens_from_index_1
    (self : DynamicCLI) (args : list string) (resolved : string) :
  reachable self ->
  dispatch_state self args = Some resolved ->
  resolved <> EmptyString ->
  exists handler is_async,
    handler_of self resolved = Some (handler, is_async) /\
    invocations (trace_of (run_async self args)) = [(resolved, skipn 1 args)] /\
    (snd (handler (skipn 1 args)) = Returns ->
       end_of (run_async self args) = Return 0) /\
    (forall e, snd (handler (skipn 1 args)) = Raises e ->
       end_of (run_async self args) = Return 1).
Proof.
  intros Hr Hd Hne.
  destruct (dispatch_state_has_handler self args resolved Hr Hd)
    as (handler & is_async & Hh).
  exists handler, is_async. split; [exact Hh|].
  rewrite (run_async_dispatch self args resolved handler is_async Hd Hne Hh).
  unfold trace_of, end_of, dispatch_end. cbn [fst snd].
  split; [apply invocations_dispatch_trace|].
  split; [intros -> | intros e ->]; reflexivity.
Qed.

Lemma dispatch_state_cons self name rest resolved :
  name <> "--help" -> _resolve_command self name = Some resolved ->
  (forall rest', rest <> "--help" :: rest') ->
  dispatch_state self (name :: rest) = Some resolved.
Proof.
  intros Hn Hres Hrest. unfold dispatch_state.
  apply String.eqb_neq in Hn. rewrite Hn, Hres.
  destruct rest as [|a1 rest']; [reflexivity|].
  destruct (String.eqb_spec a1 "--help") as [->|_]; [|reflexivity].
  now destruct (Hrest rest').
Qed.

(** C9, as the code has it.  For an argument sequence whose first token is
    not the help flag and resolves to a registered command with a non-empty
    name, and whose second token is not the help flag, the resolved handler
    is called exactly once, with the tokens after the first; the run returns
    0 when the handler returns and 1 when it raises an [Exception].  The
    instance [greet], [Bob] is the scenario of the example application. *)
Theorem handler_invoked_with_trailing_tokens
    (self : DynamicCLI) (name : string) (rest : list string) (resolved : string) :
  reachable self ->
  name <> "--help" ->
  _resolve_command self name = Some resolved ->
  resolved <> EmptyString ->
  (forall rest', rest <> "--help" :: rest') ->
  exists handler is_async,
    handler_of self resolved = Some (handler, is_async) /\
    invocations (trace_of (run_async self (name :: rest))) = [(resolved, rest)] /\
    (snd (handler rest) = Returns ->
       end_of (run_async self (name :: rest)) = Return 0) /\
    (forall e, snd (handler rest) = Raises e ->
       end_of (run_async self (name :: rest)) = Return 1).
Proof.
  intros Hr Hn Hres Hne Hrest.
  destruct (resolved_has_handler self name resolved Hr Hres)
    as (handler & is_async & Hh).
  exists handler, is_async. split; [exact Hh|].
  pose proof (dispatch_state_cons self name rest resolved Hn Hres Hrest) as Hd.
  rewrite (run_async_dispatch self (name :: rest) resolved handler is_async Hd Hne Hh).
  unfold trace_of, end_of, dispatch_end. cbn [fst snd skipn].
  split; [apply invocations_dispatch_trace|].
  split; [intros -> | intros e ->]; reflexivity.
Qed.

(** C4, as the code has it.  When the handler that a run executes raises an
    exception that is an instance of [Exception], whether it is stored as
    synchronous or asynchronous, the run ends with exit code 1 and its last
    line is the failure message made of the resolved command name and the
    text of the error; the object is unchanged. *)
Theorem handler_exception_is_reported
    (self : DynamicCLI) (args : list string) (resolved : string)
    (handler : Callable) (is_async : bool) (e : string) :
  dispatch_state self args = Some resolved ->
  resolved <> EmptyString ->
  handler_of self resolved = Some (handler, is_async) ->
  snd (handler (skipn 1 args)) = Raises e ->
  run_async self args =
  (self,
   Invoke resolved is_async (skipn 1 args)
     :: map Print (fst (handler (skipn 1 args)))
     ++ [Print (fstring ["Command '"; resolved; "' failed with error: "; e])],
   Return 1).
Proof.
  intros Hd Hne Hh He.
  rewrite (run_async_dispatch self args resolved handler is_async Hd Hne Hh).
  unfold dispatch_trace, dispatch_end, failure_line. now rewrite He.
Qed.

(** Whenever a run returns, it returns 0 or 1. *)
Ltac returns_constant :=
  try destruct (show_help _); simpl;
  let H := fresh in intros H; injection H as <-; auto.

Lemma run_async_exit_code self args code :
  end_of (run_async self args) = Return code -> code = 0%Z \/ code = 1%Z.
Proof.
  unfold end_of, run_async. destruct args as [|a0 rest]; [returns_constant|].
  destruct (String.eqb a0 "--help"); [returns_constant|].
  destruct (_resolve_command self a0) as [n|]; [|returns_constant].
  destruct (String.eqb n EmptyString); [returns_constant|].
  destruct (match tl (a0 :: rest) with a1 :: _ => String.eqb a1 "--help" | [] => false end);
    [returns_constant|].
  unfold _execute_sync, _execute_async.
  destruct (dict_get n (commands self)) as [h|].
  { rewrite guarded_call_dispatch. unfold dispatch_end. simpl.
    destruct (snd (h rest)); intros H; [| |discriminate]; injection H as <-; auto. }
  destruct (dict_get n (async_commands self)) as [h|]; [|returns_constant].
  rewrite guarded_call_dispatch. unfold dispatch_end. simpl.
  destruct (snd (h rest)); intros H; [| |discriminate]; injection H as <-; auto.
Qed.

(** A run is left by an exception only when the executed handler raised one
    that is not an [Exception]. *)
Lemma run_async_propagates self args e :
  end_of (run_async self args) = Propagates e ->
  exists resolved handler is_async,
    dispatch_state self args = Some resolved /\
    handler_of self resolved = Some (handler, is_async) /\
    snd (handler (skipn 1 args)) = RaisesBase e.
Proof.
  unfold end_of, run_async, dispatch_state, handler_of.
  destruct args as [|a0 rest].
  - destruct (show_help self). discriminate.
  - destruct (String.eqb a0 "--help").
    { destruct (show_help self). discriminate. }
    destruct (_resolve_command self a0) as [n|].
    2:{ destruct (show_help self). discriminate. }
    destruct (String.eqb n EmptyString).
    { destruct (show_help self). discriminate. }
    simpl tl. simpl skipn.
    assert (Hrest : match rest with
                    | a1 :: _ => if String.eqb a1 "--help" then None else Some n
                    | [] => Some n
                    end =
                    if match rest with a1 :: _ => String.eqb a1 "--help" | [] => false end
                    then None else Some n).
    { destruct rest as [|a1 rest']; [reflexivity|]. reflexivity. }
    rewrite Hrest.
    destruct (match rest with a1 :: _ => String.eqb a1 "--help" | [] => false end).
    { discriminate. }
    unfold _execute_sync, _execute_async.
    destruct (dict_get n (commands self)) as [h|] eqn:Ec.
    { rewrite guarded_call_dispatch. unfold dispatch_end. simpl.
      destruct (snd (h rest)) eqn:E; intros H; try discriminate.
      injection H as <-. exists n, h, false. rewrite Ec. repeat split; auto. }
    destruct (dict_get n (async_commands self)) as [h|] eqn:Ea.
    { rewrite guarded_call_dispatch. unfold dispatch_end. simpl.
      destruct (snd (h rest)) eqn:E; intros H; try discriminate.
      injection H as <-. exists n, h, true. rewrite Ec, Ea. repeat split; auto. }
    destruct (show_help self). discriminate.
Qed.

(** C3, as the code has it.  For every object a program can hold and every
    argument list, a run that returns returns 0 or 1, and a run does not
    return only when the executed handler raises an exception that is not an
    [Exception], which leaves [run_async].  The run follows the five states:
    no argument prints the no-command notice and the global help and returns
    1; a first token equal to the help flag prints the global help and
    returns 0; a first token that does not resolve prints the
    unknown-command notice and the global help and returns 1; a first token
    that resolves to a non-empty name, followed by the help flag, prints the
    help of the resolved command and returns 0; otherwise, the name being
    non-empty, the resolved handler is executed on the remaining tokens,
    with 0 when it returns and 1 when it raises an [Exception]. *)
Theorem run_async_five_states (self : DynamicCLI) (args : list string) :
  reachable self ->
  let run := run_async self args in
  let help := show_help self in
  (forall code, end_of run = Return code -> code = 0%Z \/ code = 1%Z) /\
  (forall e, end_of run = Propagates e ->
     exists resolved handler is_async,
       dispatch_state self args = Some resolved /\
       handler_of self resolved = Some (handler, is_async) /\
       snd (handler (skipn 1 args)) = RaisesBase e) /\
  match args with
  | [] => run = (fst help, Print no_command_notice :: snd help, Return 1)
  | command_name :: rest =>
      if String.eqb command_name "--help" then
        run = (fst help, snd help, Return 0)
      else
        match _resolve_command self command_name with
        | None =>
            run = (fst help,
                   Print (unknown_command_notice command_name) :: snd help,
                   Return 1)
        | Some resolved =>
            resolved <> EmptyString ->
            if match rest with
               | a1 :: _ => String.eqb a1 "--help"
               | [] => false
               end
            then run = (self, show_command_help self resolved, Return 0)
            else
              exists handler is_async,
                handler_of self resolved = Some (handler, is_async) /\
                run = (self, dispatch_trace resolved is_async handler rest,
                       dispatch_end handler rest)
        end
  end.
Proof.
  intros Hr run help.
  split; [intros code; apply run_async_exit_code|].
  split; [intros e; apply run_async_propagates|].
  subst run help. unfold no_command_notice, unknown_command_notice.
  destruct args as [|a0 rest]; simpl.
  - now destruct (show_help self).
  - destruct (String.eqb a0 "--help") eqn:E0; [now destruct (show_help self)|].
    destruct (_resolve_command self a0) as [n|] eqn:En;
      [|now destruct (show_help self)].
    intros Hne. pose proof Hne as Hne'. apply String.eqb_neq in Hne'. rewrite Hne'.
    destruct (match rest with a1 :: _ => String.eqb a1 "--help" | [] => false end)
      eqn:E1; [reflexivity|].
    destruct (resolved_has_handler self a0 n Hr En) as (handler & is_async & Hh).
    exists handler, is_async. split; [exact Hh|].
    assert (Hd : dispatch_state self (a0 :: rest) = Some n).
    { unfold dispatch_state. rewrite E0, En.
      destruct rest as [|a1 rest']; [reflexivity|]. now rewrite E1. }
    pose proof (run_async_dispatch self (a0 :: rest) n handler is_async Hd Hne Hh) as H.
    unfold run_async in H. rewrite E0, En, Hne' in H. simpl tl in H. rewrite E1 in H.
    exact H.
Qed.

(** ** The scenarios *)

Lemma dispatch_passes_tokens_from_index_1_witness :
  reachable greet_cli /\
  dispatch_state greet_cli ["greet"; "Bob"] = Some "greet" /\
  exists handler is_async,
    handler_of greet_cli "greet" = Some (handler, is_async) /\
    invocations (trace_of (run_async greet_cli ["greet"; "Bob"])) =
      [("greet", ["Bob"])] /\
    (snd (handler ["Bob"]) = Returns ->
       end_of (run_async greet_cli ["greet"; "Bob"]) = Return 0) /\
    (forall e, snd (handler ["Bob"]) = Raises e ->
       end_of (run_async greet_cli ["greet"; "Bob"]) = Return 1).
Proof.
  assert (Hr : reachable greet_cli) by apply reach_register, reach_init.
  split; [exact Hr|]. split; [reflexivity|].
  apply (dispatch_passes_tokens_from_index_1 greet_cli ["greet"; "Bob"] "greet" Hr);
    [reflexivity | discriminate].
Defined.

(** C2 as the spec words it fails: in the Dispatch state on [greet], [Bob]
    the handler is not called with the tokens from index 2 onward, which are
    none; it is called with [Bob]. *)
Lemma dispatch_does_not_pass_tokens_from_index_2 :
  dispatch_state greet_cli ["greet"; "Bob"] = Some "greet" /\
  skipn 2 ["greet"; "Bob"] = ([] : list string) /\
  invocations (trace_of (run_async greet_cli ["greet"; "Bob"])) =
    [("greet", ["Bob"])] /\
  invocations (trace_of (run_async greet_cli ["greet"; "Bob"])) <>
    [("greet", skipn 2 ["greet"; "Bob"])].
Proof.
  repeat split; try reflexivity. vm_compute. discriminate.
Qed.

(** The scenario of [examples/basic_usage.py]: [greet] is called with [Bob]
    and the run returns 0. *)
Lemma greet_bob_scenario :
  invocations (trace_of (run_async greet_cli ["greet"; "Bob"])) =
    [("greet", ["Bob"])] /\
  end_of (run_async greet_cli ["greet"; "Bob"]) = Return 0.
Proof.
  destruct (handler_invoked_with_trailing_tokens greet_cli "greet" ["Bob"] "greet")
    as (handler & is_async & Hh & Hinv & Hret & _).
  - apply reach_register, reach_init.
  - discriminate.
  - reflexivity.
  - discriminate.
  - intros rest' H. discriminate.
  - split; [exact Hinv|]. apply Hret.
    vm_compute in Hh. injection Hh as <- _. reflexivity.
Defined.

(** C9 as stated fails: a command registered under the name of the help
    flag resolves, and the second token is not the help flag, yet a run on
    it prints the global help, calls no handler and returns 0. *)
Lemma help_flag_wins_over_command_of_that_name :
  _resolve_command help_named_cli "--help" = Some "--help" /\
  invocations (trace_of (run_async help_named_cli ["--help"; "now"])) = [] /\
  invocations (trace_of (run_async help_named_cli ["--help"; "now"])) <>
    [("--help", ["now"])] /\
  end_of (run_async help_named_cli ["--help"; "now"]) = Return 0.
Proof.
  repeat split; try reflexivity. vm_compute. discriminate.
Qed.

Lemma crash_scenario :
  run_async crash_cli ["crash"] =
  (crash_cli,
   [Invoke "crash" false []; Print "Command 'crash' failed with error: boom"],
   Return 1).
Proof.
  apply (handler_exception_is_reported crash_cli ["crash"] "crash" fails false "boom");
    [reflexivity | discriminate | reflexivity | reflexivity].
Defined.

(** C4 as stated fails: a handler that calls [sys.exit(2)] raises
    SystemExit, which the clause [except Exception] does not catch; the
    exception leaves [run_async], no failure line is printed and no exit
    code is returned. *)
Lemma system_exit_leaves_run_async :
  handler_of quit_cli "quit" = Some (exits, false) /\
  exits [] = ([], RaisesBase "2") /\
  run_async quit_cli ["quit"] =
    (quit_cli, [Invoke "quit" false []], Propagates "2") /\
  end_of (run_async quit_cli ["quit"]) <> Return 1.
Proof.
  repeat split; try reflexivity. vm_compute. discriminate.
Qed.

Lemma greet_help_scenario :
  run_async greet_cli ["greet"; "--help"] =
  (greet_cli, show_command_help greet_cli "greet", Return 0).
Proof.
  pose proof (run_async_five_states greet_cli ["greet"; "--help"]
                (reach_register _ _ _ _ _ _ reach_init)) as H.
  cbv zeta in H. destruct H as (_ & _ & H).
  apply H. discriminate.
Defined.

(** C3 as stated fails: an asynchronous handler that is interrupted raises
    an exception that is not an [Exception]; the run returns neither 0 nor
    1, the exception leaves [run_async]. *)
Lemma interrupted_run_returns_no_code :
  end_of (run_async wait_cli ["wait"]) = Propagates "KeyboardInterrupt" /\
  (forall code, end_of (run_async wait_cli ["wait"]) <> Return code).
Proof.
  split; [reflexivity|]. intros code. vm_compute. discriminate.
Qed.

Lemma add_sum_scenario :
  register_all init [reg_add; reg_greet] = Some (register_seq init [reg_add; reg_greet]) /\
  _resolve_command (register_seq init [reg_add; reg_greet]) "add" = Some "add" /\
  _resolve_command (register_seq init [reg_add; reg_greet]) "sum" = Some "add" /\
  _resolve_command (register_seq init [reg_add; reg_greet]) "plus" = Some "add" /\
  _resolve_command (register_seq init [reg_add; reg_greet]) "minus" = None.
Proof.
  assert (Hall : register_all init [reg_add; reg_greet] =
                 Some (register_seq init [reg_add; reg_greet])) by reflexivity.
  destruct (resolve_after_successful_registrations _ _ Hall) as [Hreg Hnone].
  destruct (Hreg reg_add (or_introl eq_refl)) as [Hname Halias].
  split; [exact Hall|]. split; [exact Hname|].
  split; [apply Halias; simpl; auto|]. split; [apply Halias; simpl; auto|].
  apply Hnone. intros r [<-|[<-|[]]]; simpl; split; try discriminate.
  - intros [H|[H|[]]]; discriminate.
  - tauto.
Defined.

(** ** Registrations that raise *)

(** A collision on the primary name raises before anything is stored. *)
Lemma register_command_name_collision self name handler async_handler aliases doc :
  taken self name = true ->
  register_command self name handler async_handler aliases doc =
  (self, Raised (ValueError (fstring
     ["Command or alias '"; name; "' is already registered."]))).
Proof. intros H. rewrite register_command_unfold. now rewrite H. Qed.

(** A collision on an alias raises after the command is stored and before
    the cache is cleared: the new name resolves, and the cache is the one of
    before the call. *)
Lemma register_command_alias_collision
    self name handler async_handler aliases doc self' e :
  taken self name = false ->
  register_command self name handler async_handler aliases doc = (self', Raised e) ->
  _resolve_command self' name = Some name /\
  _all_commands_cached self' = _all_commands_cached self.
Proof.
  intros Hfree. rewrite register_command_unfold, Hfree. cbv zeta.
  rewrite aliases_loop.
  set (self2 := store_command self name handler async_handler doc).
  pose proof (primary_store_command self name handler async_handler doc Hfree) as Hp.
  destruct (store_command_fields self name handler async_handler doc) as [_ Hca].
  fold self2 in Hp, Hca.
  pose proof (install_aliases_fields self2 name
                (match aliases with Some al => al | None => [] end)) as Hf.
  destruct (install_aliases self2 name _) as [self3 [|e']]; [discriminate|].
  intros H. injection H as <- <-. simpl in Hf. destruct Hf as (Hc & Ha & _ & Hcache).
  split; [|rewrite Hcache; exact Hca].
  apply resolve_primary. unfold primary in *. rewrite Hc, Ha.
  eapply Permutation_in; [exact Hp|]. now left.
Qed.

(** C1 fails on the code: after [a] is registered, registering [b] with the
    aliases [x] and [a] raises the ValueError of the alias loop, and the
    object is not what it was before the call: [b] is listed and has a doc,
    and the alias [x] is installed. *)
Theorem alias_collision_is_not_atomic :
  let call := register_command cli_a "b" noop false (Some ["x"; "a"]) (Some "B.") in
  snd call =
    Raised (ValueError "Alias 'a' conflicts with an existing command or alias.") /\
  snd (list_commands cli_a) = ["a"] /\
  snd (list_commands (fst call)) = ["a"; "b"] /\
  alias_map cli_a = [] /\
  alias_map (fst call) = [("x", "b")] /\
  dict_get "b" (docs cli_a) = None /\
  dict_get "b" (docs (fst call)) = Some "B.".
Proof. repeat split. Qed.

(** C7 fails on the code: of the two calls, the first returns and the second
    raises, and the listing after them contains the name of the call that
    raised. *)
Theorem listing_contains_name_of_failed_registration :
  snd (register init reg_a) = Done /\
  snd (register (fst (register init reg_a)) reg_b_alias_a) =
    Raised (ValueError "Alias 'a' conflicts with an existing command or alias.") /\
  snd (list_commands (register_seq init [reg_a; reg_b_alias_a])) = ["a"; "b"].
Proof. repeat split. Qed.

(** C8 fails on the code: with the listing cached before a registration that
    raises on its alias, the completion of the empty prefix omits the primary
    name [b], which is a key of [commands] and resolves. *)
Theorem completion_omits_primary_name :
  let cached := fst (list_commands cli_a) in
  let self := fst (register cached reg_b_alias_a) in
  dict_in "b" (commands self) = true /\
  _resolve_command self "b" = Some "b" /\
  startswith "b" EmptyString = true /\
  snd (complete_command self EmptyString) = ["a"].
Proof. repeat split. Qed.

(** C10.  There is a sequence of calls - a registration that returns, a
    listing that fills the cache, a registration of a fresh name that raises
    on a colliding alias - after which the fresh name resolves, so that it
    can be dispatched, while [list_commands] returns the cached list, which
    omits it. *)
Theorem stale_listing_after_alias_collision :
  exists (self1 self2 self3 : DynamicCLI) (e : exn),
    register_command init "a" noop false None None = (self1, Done) /\
    list_commands self1 = (self2, ["a"]) /\
    taken self2 "b" = false /\
    register_command self2 "b" greet false (Some ["a"]) None = (self3, Raised e) /\
    _resolve_command self3 "b" = Some "b" /\
    invocations (trace_of (run_async self3 ["b"; "Bob"])) = [("b", ["Bob"])] /\
    _all_commands_cached self3 = Some ["a"] /\
    snd (list_commands self3) = ["a"] /\
    ~ In "b" (snd (list_commands self3)).
Proof.
  do 4 eexists. repeat split.
  intros [H|[]]. discriminate.
Qed.

(** ** What holds of the listing and of the completion *)

(** X4.  In every object a program can hold, the listing is strictly
    ascending, so it has no repetition, and lists primary names only, never
    an alias. *)
Lemma list_commands_strictly_ascending self :
  reachable self ->
  strictly_ascending (snd (list_commands self)) /\
  NoDup (snd (list_commands self)) /\
  (forall x, In x (snd (list_commands self)) ->
     In x (primary self) /\ ~ In x (dict_keys (alias_map self))).
Proof.
  intros Hr. pose proof (reachable_consistent _ (reach_list _ Hr)) as Hc.
  destruct (reachable_namespaces self Hr) as (_ & _ & Hdisj).
  assert (Hcache : _all_commands_cached (fst (list_commands self)) =
                   Some (snd (list_commands self)) /\
                   primary (fst (list_commands self)) = primary self).
  { unfold list_commands.
    destruct (_all_commands_cached self) eqn:E; simpl; auto. }
  destruct Hcache as [Hcache Hprim].
  destruct (cache_sound _ Hc _ Hcache) as [Hs Hi]. rewrite Hprim in Hi.
  split; [exact Hs|]. split; [now apply strictly_ascending_NoDup|].
  intros x Hx. split; [now apply Hi | apply Hdisj; now apply Hi].
Qed.

Lemma register_all_primary rs : forall self self',
  register_all self rs = Some self' ->
  Permutation (primary self') (primary self ++ map reg_name rs).
Proof.
  induction rs as [|r rs IH]; intros self self'; simpl.
  - intros H. injection H as <-. now rewrite app_nil_r.
  - destruct (register self r) as [self1 [|e]] eqn:E; [|discriminate].
    intros H. rewrite (IH _ _ H).
    unfold register in E. apply register_command_Done in E.
    destruct E as (_ & Hp & _). rewrite <- Hp. simpl.
    apply Permutation_middle.
Qed.

Lemma register_all_cache rs : forall self self',
  _all_commands_cached self = None ->
  register_all self rs = Some self' -> _all_commands_cached self' = None.
Proof.
  induction rs as [|r rs IH]; intros self self' Hc; simpl.
  - intros H. now injection H as <-.
  - destruct (register self r) as [self1 [|e]] eqn:E; [|discriminate].
    apply IH. unfold register in E. now apply register_command_Done in E.
Qed.

(** X5.  After registrations that all returned, the listing is the sorted
    list of their primary names. *)
Lemma list_commands_after_successful_registrations rs self :
  register_all init rs = Some self ->
  snd (list_commands self) = sorted (map reg_name rs).
Proof.
  intros Hall.
  pose proof (register_all_cache rs init self eq_refl Hall) as Hc.
  pose proof (register_all_primary rs init self Hall) as Hp. simpl in Hp.
  unfold list_commands. rewrite Hc. simpl. fold (primary self).
  apply sorted_unique; [|apply sorted_ascending].
  rewrite Hp. apply sorted_perm.
Qed.

Lemma list_commands_alias_map self :
  alias_map (fst (list_commands self)) = alias_map self.
Proof.
  unfold list_commands. now destruct (_all_commands_cached self).
Qed.

Lemma list_commands_without_cache self :
  _all_commands_cached self = None ->
  snd (list_commands self) = sorted (primary self).
Proof. intros H. unfold list_commands. now rewrite H. Qed.

(** When the listing is the sorted list of the primary names - there is no
    cache, or the cache is not stale - the completion of a prefix is the
    strictly ascending list of the primary names and aliases that start with
    the prefix. *)
Lemma complete_command_current_listing self prefix :
  consistent self -> snd (list_commands self) = sorted (primary self) ->
  let l := snd (complete_command self prefix) in
  strictly_ascending l /\
  (forall x, In x l <-> In x (names self) /\ startswith x prefix = true).
Proof.
  intros Hc Hcur l. subst l. unfold complete_command.
  pose proof (list_commands_alias_map self) as Hal.
  destruct (list_commands self) as [self' cmds]. simpl in *. subst cmds.
  rewrite Hal. split.
  - apply ascending_NoDup_strict; [apply sorted_ascending|].
    apply sorted_NoDup.
    assert (Hnd : NoDup (sorted (primary self) ++ dict_keys (alias_map self))).
    { eapply Permutation_NoDup; [|exact (names_unique _ Hc)].
      unfold names. apply Permutation_app_tail, sorted_perm. }
    clear Hc Hal. revert Hnd.
    generalize (sorted (primary self)) (dict_keys (alias_map self)).
    intros l1 l2 Hnd.
    pose proof (NoDup_app_remove_r _ _ Hnd) as H1.
    pose proof (NoDup_app_remove_l _ _ Hnd) as H2.
    pose proof (NoDup_app_disjoint _ _ Hnd) as H3.
    clear Hnd. induction l1 as [|x l1 IH]; simpl.
    + now apply NoDup_filter.
    + inversion H1 as [|? ? Hx H1']; subst.
      assert (IH' : NoDup (filter (fun cmd => startswith cmd prefix) l1 ++
                           filter (fun alias => startswith alias prefix) l2)).
      { apply IH; [exact H1'|]. intros y Hy. apply H3. now right. }
      destruct (startswith x prefix); [|exact IH'].
      simpl. constructor; [|exact IH'].
      rewrite in_app_iff, !filter_In. intros [[Hin _]|[Hin _]]; [tauto|].
      apply (H3 x); [now left | exact Hin].
  - intros x. rewrite sorted_In, in_app_iff, !filter_In, sorted_In.
    unfold names. rewrite in_app_iff. tauto.
Qed.

(** The completion of the empty prefix is then every primary name and every
    alias. *)
Lemma complete_command_empty_prefix self x :
  consistent self -> snd (list_commands self) = sorted (primary self) ->
  In x (snd (complete_command self EmptyString)) <-> In x (names self).
Proof.
  intros Hc Hcur.
  destruct (complete_command_current_listing self EmptyString Hc Hcur) as [_ H].
  rewrite H. unfold startswith. destruct x; simpl; tauto.
Qed.

(** ** Assignment and lookup in dictionaries *)

Section DictSetFacts.
Context {V : Type}.
Implicit Types (d : dict V) (k : string) (v : V).

Lemma dict_get_set_same d k v : dict_get k (dict_set k v d) = Some v.
Proof.
  induction d as [|[k' v'] d IH]; simpl.
  - now rewrite String.eqb_refl.
  - destruct (String.eqb k' k) eqn:E; simpl; rewrite E; [reflexivity | exact IH].
Qed.

Lemma dict_get_set_other d k k' v :
  k' <> k -> dict_get k' (dict_set k v d) = dict_get k' d.
Proof.
  intros Hne. induction d as [|[k0 v0] d IH]; simpl.
  - destruct (String.eqb_spec k k') as [->|_]; [tauto | reflexivity].
  - destruct (String.eqb_spec k0 k) as [->|_]; simpl.
    + destruct (String.eqb_spec k k') as [->|_]; [tauto | reflexivity].
    + now rewrite IH.
Qed.

Lemma dict_in_set_other d k k' v :
  k' <> k -> dict_in k' (dict_set k v d) = dict_in k' d.
Proof. intros H. unfold dict_in. now rewrite dict_get_set_other. Qed.

Lemma dict_get_app d1 d2 k :
  dict_get k (d1 ++ d2) =
  match dict_get k d1 with
  | Some v => Some v
  | None => dict_get k d2
  end.
Proof.
  induction d1 as [|[k' v'] d1 IH]; simpl; [reflexivity|].
  now destruct (String.eqb k' k).
Qed.
End DictSetFacts.

(** ** When a registration returns *)

Lemma taken_add_alias self alias name x :
  taken self alias = false ->
  taken (set_alias_map self (dict_set alias name (alias_map self))) x = true <->
  taken self x = true \/ x = alias.
Proof.
  intros Hfree.
  assert (Hin : dict_in alias (alias_map self) = false).
  { unfold taken in Hfree. rewrite !orb_false_iff in Hfree. tauto. }
  rewrite !taken_true. unfold names, primary. simpl.
  rewrite (dict_set_fresh _ _ _ Hin), dict_keys_app. simpl.
  rewrite !in_app_iff. simpl. intuition.
Qed.

Lemma taken_store_command self name handler async_handler doc x :
  taken self name = false ->
  taken (store_command self name handler async_handler doc) x = true <->
  taken self x = true \/ x = name.
Proof.
  intros Hfree. rewrite !taken_true. unfold names.
  destruct (store_command_fields self name handler async_handler doc) as [-> _].
  pose proof (primary_store_command self name handler async_handler doc Hfree) as Hp.
  rewrite !in_app_iff. split.
  - intros [H|H]; [|tauto].
    apply (Permutation_in _ (Permutation_sym Hp)) in H. destruct H as [<-|H]; tauto.
  - intros [[H|H]| ->]; [| tauto |].
    + left. apply (Permutation_in _ Hp). now right.
    + left. apply (Permutation_in _ Hp). now left.
Qed.

(** The alias loop runs to its end exactly when the aliases are pairwise
    distinct and none of them is taken. *)
Lemma install_aliases_Done_iff name aliases : forall self,
  snd (install_aliases self name aliases) = Done <->
  NoDup aliases /\ (forall a, In a aliases -> taken self a = false).
Proof.
  induction aliases as [|a al IH]; intros self; simpl.
  - split; [intros _; split; [constructor | tauto] | reflexivity].
  - destruct (taken self a) eqn:E; simpl.
    + split; [discriminate|]. intros [_ H]. specialize (H a (or_introl eq_refl)).
      congruence.
    + rewrite IH. split.
      * intros [Hnd Hf]. split.
        -- constructor; [|exact Hnd]. intros Hin. specialize (Hf a Hin).
           assert (Ht : taken (set_alias_map self (dict_set a name (alias_map self))) a = true)
             by (apply taken_add_alias; auto).
           congruence.
        -- intros x [<-|Hx]; [exact E|]. specialize (Hf x Hx).
           destruct (taken self x) eqn:Ex; [|reflexivity].
           assert (Ht : taken (set_alias_map self (dict_set a name (alias_map self))) x = true)
             by (apply taken_add_alias; auto).
           congruence.
      * intros [Hnd Hf]. inversion Hnd as [|? ? Ha Hnd']; subst. split; [exact Hnd'|].
        intros x Hx.
        destruct (taken (set_alias_map self (dict_set a name (alias_map self))) x) eqn:Ex;
          [|reflexivity].
        apply taken_add_alias in Ex; [|exact E]. destruct Ex as [Ex| ->].
        -- rewrite (Hf x (or_intror Hx)) in Ex. discriminate.
        -- tauto.
Qed.

(** X1.  [register_command] returns, rather than raises, exactly when the
    name is neither a command nor an alias, the aliases asked for are
    pairwise distinct, and none of them is the name itself, a command or an
    alias. *)
Theorem register_command_returns_iff
    (self : DynamicCLI) (name : string) (handler : Callable)
    (async_handler : bool) (aliases : option (list string)) (doc : option string) :
  snd (register_command self name handler async_handler aliases doc) = Done <->
  taken self name = false /\
  NoDup (alias_list aliases) /\
  (forall a, In a (alias_list aliases) -> a <> name /\ taken self a = false).
Proof.
  rewrite register_command_unfold.
  destruct (taken self name) eqn:Hfree.
  - simpl. split; [discriminate | intros [H _]; discriminate].
  - cbv zeta. rewrite aliases_loop. fold (alias_list aliases).
    set (self2 := store_command self name handler async_handler doc).
    pose proof (install_aliases_Done_iff name (alias_list aliases) self2) as Hiff.
    destruct (install_aliases self2 name (alias_list aliases)) as [self3 [|e]];
      simpl in *.
    + split; [intros _ | reflexivity]. split; [reflexivity|].
      destruct (proj1 Hiff eq_refl) as [Hnd Hf]. split; [exact Hnd|].
      intros a Ha. specialize (Hf a Ha). split.
      * intros ->.
        assert (Ht : taken self2 name = true)
          by (apply taken_store_command; auto).
        congruence.
      * destruct (taken self a) eqn:Ea; [|reflexivity].
        assert (Ht : taken self2 a = true)
          by (apply taken_store_command; auto).
        congruence.
    + split; [discriminate|]. intros (_ & Hnd & Hf).
      apply Hiff. split; [exact Hnd|]. intros a Ha.
      destruct (Hf a Ha) as [Hne Hta].
      destruct (taken self2 a) eqn:Ea; [|reflexivity].
      apply taken_store_command in Ea; [|exact Hfree].
      destruct Ea as [Ea| ->]; [congruence | tauto].
Qed.

(** ** What a registration leaves in place *)

Lemma store_command_lookup self name handler async_handler doc k :
  k <> name ->
  let self' := store_command self name handler async_handler doc in
  dict_get k (commands self') = dict_get k (commands self) /\
  dict_get k (async_commands self') = dict_get k (async_commands self).
Proof.
  intros Hne. unfold store_command.
  destruct async_handler; simpl; rewrite ?dict_get_set_other; auto.
Qed.

Lemma store_command_stored self name handler async_handler doc :
  taken self name = false ->
  let self' := store_command self name handler async_handler doc in
  handler_of self' name = Some (handler, async_handler) /\
  dict_get name (docs self') = Some (doc_or_default doc).
Proof.
  intros Hfree. unfold taken in Hfree. rewrite !orb_false_iff in Hfree.
  destruct Hfree as [[Hc Ha] _]. unfold dict_in in Hc, Ha.
  unfold store_command, handler_of.
  destruct async_handler; simpl; rewrite !dict_get_set_same.
  - destruct (dict_get name (commands self)); [discriminate | auto].
  - auto.
Qed.

Lemma install_aliases_alias_map name aliases : forall self,
  exists ext,
    alias_map (fst (install_aliases self name aliases)) = alias_map self ++ ext /\
    (forall a n, In (a, n) ext -> In a aliases /\ n = name).
Proof.
  induction aliases as [|a al IH]; intros self; simpl.
  - exists []. rewrite app_nil_r. split; [reflexivity | intros ? ? []].
  - destruct (taken self a) eqn:E; simpl.
    + exists []. rewrite app_nil_r. split; [reflexivity | intros ? ? []].
    + assert (Hin : dict_in a (alias_map self) = false).
      { unfold taken in E. rewrite !orb_false_iff in E. tauto. }
      destruct (IH (set_alias_map self (dict_set a name (alias_map self))))
        as (ext & Hext & Hall).
      exists ((a, name) :: ext). split.
      { rewrite Hext. simpl. rewrite (dict_set_fresh _ _ _ Hin), <- app_assoc.
        reflexivity. }
      intros a' n [Heq|Hin'].
      * injection Heq as <- <-. auto.
      * destruct (Hall a' n Hin'). auto.
Qed.

Lemma install_aliases_Raised name aliases e : forall self,
  snd (install_aliases self name aliases) = Raised e ->
  exists a, In a aliases /\ e = alias_conflict a.
Proof.
  induction aliases as [|a al IH]; intros self; simpl; [discriminate|].
  destruct (taken self a); simpl.
  - intros H. injection H as <-. exists a. auto.
  - intros H. destruct (IH _ H) as (a' & Ha' & ->). exists a'. auto.
Qed.

Lemma resolve_Some_taken self x n : _resolve_command self x = Some n -> taken self x = true.
Proof.
  unfold _resolve_command, taken.
  destruct (dict_in x (commands self) || dict_in x (async_commands self));
    [reflexivity|]. simpl. unfold dict_in. now intros ->.
Qed.

Lemma handler_of_Some_taken self n hb : handler_of self n = Some hb -> taken self n = true.
Proof.
  unfold handler_of, taken, dict_in.
  destruct (dict_get n (commands self)); [reflexivity|].
  destruct (dict_get n (async_commands self)); [reflexivity | discriminate].
Qed.

(** Resolution and the stored handlers read [commands], [async_commands]
    and [alias_map] only, and in [alias_map] the first item of a key. *)
Lemma resolve_handler_ext self self' ext x n hb :
  (forall k, taken self k = true ->
             dict_get k (commands self') = dict_get k (commands self) /\
             dict_get k (async_commands self') = dict_get k (async_commands self)) ->
  alias_map self' = alias_map self ++ ext ->
  _resolve_command self x = Some n -> handler_of self n = Some hb ->
  _resolve_command self' x = Some n /\ handler_of self' n = Some hb.
Proof.
  intros Hold Hext Hres Hh. split.
  - destruct (Hold x (resolve_Some_taken _ _ _ Hres)) as [Hc Ha].
    unfold _resolve_command, dict_in in *. rewrite Hc, Ha, Hext, dict_get_app.
    destruct (dict_get x (commands self)); [exact Hres|].
    destruct (dict_get x (async_commands self)); [exact Hres|].
    simpl in *. now rewrite Hres.
  - destruct (Hold n (handler_of_Some_taken _ _ _ Hh)) as [Hc Ha].
    unfold handler_of in *. now rewrite Hc, Ha.
Qed.

(** X2.  A call of [register_command], whether it returns or raises, leaves
    every string that resolved resolving to the same command, with the same
    handler stored in the same table. *)
Theorem register_command_keeps_dispatch
    (self : DynamicCLI) (name : string) (handler : Callable)
    (async_handler : bool) (aliases : option (list string)) (doc : option string)
    (x n : string) (h : Callable) (is_async : bool) :
  _resolve_command self x = Some n ->
  handler_of self n = Some (h, is_async) ->
  let self' := fst (register_command self name handler async_handler aliases doc) in
  _resolve_command self' x = Some n /\ handler_of self' n = Some (h, is_async).
Proof.
  intros Hres Hh self'. subst self'. rewrite register_command_unfold.
  destruct (taken self name) eqn:Hfree; [simpl; auto|].
  cbv zeta. rewrite aliases_loop.
  set (self2 := store_command self name handler async_handler doc).
  pose proof (install_aliases_fields self2 name
                (match aliases with Some al => al | None => [] end)) as Hf.
  destruct (install_aliases_alias_map name
              (match aliases with Some al => al | None => [] end) self2)
    as (ext & Hext & _).
  destruct (store_command_fields self name handler async_handler doc) as [Hal _].
  fold self2 in Hal. rewrite Hal in Hext.
  assert (Hname : forall k, taken self k = true -> k <> name).
  { intros k Hk ->. congruence. }
  assert (Hgoal : forall s3,
            commands s3 = commands self2 -> async_commands s3 = async_commands self2 ->
            alias_map s3 = alias_map self ++ ext ->
            _resolve_command s3 x = Some n /\ handler_of s3 n = Some (h, is_async)).
  { intros s3 Hc Ha Hm.
    apply (resolve_handler_ext self s3 ext x n (h, is_async)); auto.
    intros k Hk. rewrite Hc, Ha. now apply store_command_lookup, Hname. }
  destruct (install_aliases self2 name _) as [self3 [|e]]; simpl in *;
    destruct Hf as (Hc & Ha & _); apply Hgoal; simpl; auto.
Qed.

Lemma register_command_keeps_dispatch_witness :
  _resolve_command add_cli "sum" = Some "add" /\
  snd (register_command add_cli "b" greet true (Some ["x"; "sum"]) None) =
    Raised (alias_conflict "sum") /\
  _resolve_command
    (fst (register_command add_cli "b" greet true (Some ["x"; "sum"]) None)) "sum" =
    Some "add" /\
  handler_of
    (fst (register_command add_cli "b" greet true (Some ["x"; "sum"]) None)) "add" =
    Some (noop, false).
Proof.
  split; [reflexivity|]. split; [reflexivity|].
  apply (register_command_keeps_dispatch add_cli "b" greet true
           (Some ["x"; "sum"]) None "sum" "add" noop false); reflexivity.
Defined.

(** X3.  When the name is free and [register_command] raises - so it raises
    in the alias loop, on one of the aliases asked for - the command is
    registered all the same: the name resolves to itself, the handler is
    stored in the table asked for, the doc is stored, and the cached listing
    is the one of before the call. *)
Theorem failed_alias_registration_stores_command
    (self : DynamicCLI) (name : string) (handler : Callable)
    (async_handler : bool) (aliases : option (list string)) (doc : option string)
    (e : exn) :
  taken self name = false ->
  snd (register_command self name handler async_handler aliases doc) = Raised e ->
  let self' := fst (register_command self name handler async_handler aliases doc) in
  (exists a, In a (alias_list aliases) /\ e = alias_conflict a) /\
  _resolve_command self' name = Some name /\
  handler_of self' name = Some (handler, async_handler) /\
  dict_get name (docs self') = Some (doc_or_default doc) /\
  _all_commands_cached self' = _all_commands_cached self.
Proof.
  intros Hfree. rewrite register_command_unfold, Hfree. cbv zeta.
  rewrite aliases_loop. fold (alias_list aliases).
  set (self2 := store_command self name handler async_handler doc).
  destruct (store_command_stored self name handler async_handler doc Hfree)
    as [Hh Hd].
  destruct (store_command_fields self name handler async_handler doc) as [_ Hca].
  fold self2 in Hh, Hd, Hca.
  pose proof (install_aliases_fields self2 name (alias_list aliases)) as Hf.
  pose proof (install_aliases_Raised name (alias_list aliases) e self2) as Hr.
  destruct (install_aliases self2 name (alias_list aliases)) as [self3 [|e']];
    simpl in *; [discriminate|].
  intros He. destruct Hf as (Hc & Ha & Hdocs & Hcache).
  split; [exact (Hr He)|].
  assert (Hh3 : handler_of self3 name = Some (handler, async_handler)).
  { unfold handler_of in *. now rewrite Hc, Ha. }
  split; [|split; [exact Hh3|split; [now rewrite Hdocs | now rewrite Hcache]]].
  unfold _resolve_command, handler_of, dict_in in *.
  destruct (dict_get name (commands self3)); [reflexivity|].
  destruct (dict_get name (async_commands self3)); [reflexivity | discriminate].
Qed.

Lemma failed_alias_registration_stores_command_witness :
  taken add_cli "b" = false /\
  snd (register_command add_cli "b" greet true (Some ["x"; "sum"]) None) =
    Raised (alias_conflict "sum") /\
  _resolve_command
    (fst (register_command add_cli "b" greet true (Some ["x"; "sum"]) None)) "b" =
    Some "b" /\
  handler_of
    (fst (register_command add_cli "b" greet true (Some ["x"; "sum"]) None)) "b" =
    Some (greet, true).
Proof.
  split; [reflexivity|]. split; [reflexivity|].
  destruct (failed_alias_registration_stores_command add_cli "b" greet true
              (Some ["x"; "sum"]) None (alias_conflict "sum") eq_refl eq_refl)
    as (_ & Hres & Hh & _).
  split; [exact Hres | exact Hh].
Defined.

(** ** The listing and the completion *)

Lemma list_commands_strictly_ascending_witness :
  reachable add_cli /\
  snd (list_commands add_cli) = ["add"] /\
  strictly_ascending (snd (list_commands add_cli)).
Proof.
  assert (Hr : reachable add_cli) by (apply register_seq_reachable, reach_init).
  split; [exact Hr|]. split; [reflexivity|].
  exact (proj1 (list_commands_strictly_ascending add_cli Hr)).
Defined.

Lemma list_commands_after_successful_registrations_witness :
  register_all init [reg_greet; reg_add] =
    Some (register_seq init [reg_greet; reg_add]) /\
  snd (list_commands (register_seq init [reg_greet; reg_add])) = ["add"; "greet"].
Proof.
  split; [reflexivity|].
  exact (list_commands_after_successful_registrations [reg_greet; reg_add]
           (register_seq init [reg_greet; reg_add]) eq_refl).
Defined.

Lemma listed_is_primary self x :
  consistent self -> In x (snd (list_commands self)) -> In x (primary self).
Proof.
  intros Hc. unfold list_commands.
  destruct (_all_commands_cached self) as [l|] eqn:E; simpl.
  - destruct (cache_sound _ Hc l E) as [_ Hi]. apply Hi.
  - apply sorted_In.
Qed.

(** X6.  When a registration returns, the next listing is computed afresh:
    it is the sorted list of the primary names, it contains the new name,
    and it contains every name that was listed before the call. *)
Theorem returned_registration_is_listed
    (self self' : DynamicCLI) (name : string) (handler : Callable)
    (async_handler : bool) (aliases : option (list string)) (doc : option string) :
  reachable self ->
  register_command self name handler async_handler aliases doc = (self', Done) ->
  snd (list_commands self') = sorted (primary self') /\
  In name (snd (list_commands self')) /\
  (forall x, In x (snd (list_commands self)) -> In x (snd (list_commands self'))).
Proof.
  intros Hr Hreg. apply register_command_Done in Hreg.
  destruct Hreg as (_ & Hp & _ & Hcache).
  rewrite (list_commands_without_cache self' Hcache).
  split; [reflexivity|]. split.
  - apply sorted_In. apply (Permutation_in _ Hp). now left.
  - intros x Hx. apply sorted_In. apply (Permutation_in _ Hp). right.
    apply listed_is_primary; [now apply reachable_consistent | exact Hx].
Qed.

Lemma returned_registration_is_listed_witness :
  reachable (fst (list_commands cli_a)) /\
  snd (list_commands (fst (list_commands cli_a))) = ["a"] /\
  snd (list_commands
         (fst (register_command (fst (list_commands cli_a)) "Z" noop true None None))) =
    ["Z"; "a"].
Proof.
  assert (Hr : reachable (fst (list_commands cli_a))).
  { apply reach_list. unfold cli_a. apply reach_register, reach_init. }
  split; [exact Hr|]. split; [reflexivity|].
  destruct (returned_registration_is_listed (fst (list_commands cli_a))
              (fst (register_command (fst (list_commands cli_a)) "Z" noop true None None))
              "Z" noop true None None Hr eq_refl) as [H _].
  rewrite H. reflexivity.
Defined.

Lemma NoDup_app_intro {A : Type} (l1 l2 : list A) :
  NoDup l1 -> NoDup l2 -> (forall x, In x l1 -> ~ In x l2) -> NoDup (l1 ++ l2).
Proof.
  induction l1 as [|x l1 IH]; simpl; intros H1 H2 Hd; [exact H2|].
  inversion H1 as [|? ? Hx H1']; subst. constructor.
  - rewrite in_app_iff. intros [H|H]; [tauto|]. apply (Hd x); auto.
  - apply IH; auto.
Qed.

(** X7.  After registrations that all returned, the completion of a prefix
    is the strictly ascending list of the registered primary names and
    aliases that start with the prefix, and of nothing else. *)
Theorem completion_after_successful_registrations
    (rs : list registration) (self : DynamicCLI) (prefix : string) :
  register_all init rs = Some self ->
  strictly_ascending (snd (complete_command self prefix)) /\
  (forall x, In x (snd (complete_command self prefix)) <->
     (exists r, In r rs /\ (x = reg_name r \/ In x (aliases_of r))) /\
     startswith x prefix = true).
Proof.
  intros Hall.
  pose proof (register_all_consistent rs init self consistent_init Hall) as Hc.
  pose proof (register_all_cache rs init self eq_refl Hall) as Hcache.
  destruct (register_all_effects rs init self Hall) as [Hp Ha].
  destruct (complete_command_current_listing self prefix Hc
              (list_commands_without_cache self Hcache)) as [Hs Hin].
  split; [exact Hs|]. intros x. rewrite Hin. unfold names.
  rewrite in_app_iff, Hp. simpl.
  assert (Hal : In x (dict_keys (alias_map self)) <->
                exists r, In r rs /\ In x (aliases_of r)).
  { unfold dict_keys. rewrite in_map_iff. split.
    - intros ([a n] & <- & H). apply Ha in H. destruct H as [[]|(r & Hr & Hx & _)].
      eauto.
    - intros (r & Hr & Hx). exists (x, reg_name r). split; [reflexivity|].
      apply Ha. right. eauto. }
  rewrite Hal, in_map_iff. split.
  - intros [[[[]|(r & <- & Hr)]|(r & Hr & Hx)] Hs']; split; eauto.
  - intros [(r & Hr & [-> | Hx]) Hs']; split; eauto.
Qed.

Lemma completion_after_successful_registrations_witness :
  register_all init [reg_greet; reg_add] =
    Some (register_seq init [reg_greet; reg_add]) /\
  snd (complete_command (register_seq init [reg_greet; reg_add]) "s") = ["sum"] /\
  strictly_ascending
    (snd (complete_command (register_seq init [reg_greet; reg_add]) "s")).
Proof.
  split; [reflexivity|]. split; [reflexivity|].
  exact (proj1 (completion_after_successful_registrations [reg_greet; reg_add]
                  (register_seq init [reg_greet; reg_add]) "s" eq_refl)).
Defined.

Lemma listed_NoDup self : consistent self -> NoDup (snd (list_commands self)).
Proof.
  intros Hc. unfold list_commands.
  destruct (_all_commands_cached self) as [l|] eqn:E; simpl.
  - destruct (cache_sound _ Hc l E) as [Hs _]. now apply strictly_ascending_NoDup.
  - apply sorted_NoDup. now apply primary_NoDup.
Qed.

(** X8.  In every object a program can hold, stale cache or not, the
    completion of a prefix is strictly ascending, every suggestion starts
    with the prefix and resolves to a command, and every alias that starts
    with the prefix is suggested. *)
Theorem completion_is_sound (self : DynamicCLI) (prefix : string) :
  reachable self ->
  strictly_ascending (snd (complete_command self prefix)) /\
  (forall x, In x (snd (complete_command self prefix)) ->
     startswith x prefix = true /\ exists n, _resolve_command self x = Some n) /\
  (forall a, In a (dict_keys (alias_map self)) -> startswith a prefix = true ->
     In a (snd (complete_command self prefix))).
Proof.
  intros Hr. pose proof (reachable_consistent self Hr) as Hc.
  destruct (reachable_namespaces self Hr) as (_ & Hnda & Hdisj).
  pose proof (listed_NoDup self Hc) as Hndl.
  pose proof (fun x => listed_is_primary self x Hc) as Hl.
  pose proof (list_commands_alias_map self) as Hal.
  unfold complete_command.
  destruct (list_commands self) as [self' cmds]. simpl in *. rewrite Hal.
  split; [|split].
  - apply ascending_NoDup_strict; [apply sorted_ascending|].
    apply sorted_NoDup, NoDup_app_intro; try now apply NoDup_filter.
    intros x Hx Hx'. apply filter_In in Hx, Hx'.
    apply (Hdisj x); [apply Hl|]; tauto.
  - intros x Hx. apply (proj1 (sorted_In _ _)) in Hx.
    rewrite in_app_iff, !filter_In in Hx.
    destruct Hx as [[Hx Hs]|[Hx Hs]]; (split; [exact Hs|]).
    + exists x. apply resolve_primary. now apply Hl.
    + unfold dict_keys in Hx. apply in_map_iff in Hx.
      destruct Hx as ([a n] & <- & Hin). exists n. now apply resolve_alias.
  - intros a Ha Hs. apply sorted_In. rewrite in_app_iff, !filter_In. tauto.
Qed.

Lemma completion_is_sound_witness :
  reachable (fst (register_command (fst (list_commands add_cli))
                    "b" noop false (Some ["sum"]) None)) /\
  snd (complete_command
         (fst (register_command (fst (list_commands add_cli))
                 "b" noop false (Some ["sum"]) None)) EmptyString) =
    ["add"; "plus"; "sum"] /\
  strictly_ascending
    (snd (complete_command
            (fst (register_command (fst (list_commands add_cli))
                    "b" noop false (Some ["sum"]) None)) EmptyString)).
Proof.
  assert (Hr : reachable (fst (register_command (fst (list_commands add_cli))
                                 "b" noop false (Some ["sum"]) None))).
  { apply reach_register, reach_list. apply register_seq_reachable, reach_init. }
  split; [exact Hr|]. split; [reflexivity|].
  exact (proj1 (completion_is_sound _ EmptyString Hr)).
Defined.

(** ** Aliases of a command *)

Lemma get_command_aliases_In self n a :
  In a (get_command_aliases self n) <-> In (a, n) (alias_map self).
Proof.
  unfold get_command_aliases, dict_items. rewrite in_map_iff. split.
  - intros ([a' n'] & <- & H). apply filter_In in H. simpl in H.
    destruct H as [H E]. apply String.eqb_eq in E. now subst.
  - intros H. exists (a, n). split; [reflexivity|].
    apply filter_In. split; [exact H | apply String.eqb_refl].
Qed.

Lemma NoDup_map_filter {A B : Type} (f : A -> B) (p : A -> bool) l :
  NoDup (map f l) -> NoDup (map f (filter p l)).
Proof.
  induction l as [|x l IH]; simpl; intros H; [constructor|].
  inversion H as [|? ? Hx H']; subst.
  destruct (p x); simpl; [|now apply IH].
  constructor; [|now apply IH].
  intros Hin. apply Hx. apply in_map_iff in Hin.
  destruct Hin as (y & Hy & Hin). apply filter_In in Hin.
  apply in_map_iff. exists y. tauto.
Qed.

(** X9.  In every object a program can hold, the aliases listed for a name
    are exactly the strings other than the name that resolve to it, each
    listed once. *)
Theorem aliases_are_what_resolves (self : DynamicCLI) (n a : string) :
  reachable self ->
  (In a (get_command_aliases self n) <->
   _resolve_command self a = Some n /\ a <> n) /\
  NoDup (get_command_aliases self n).
Proof.
  intros Hr. pose proof (reachable_consistent self Hr) as Hc.
  destruct (reachable_namespaces self Hr) as (_ & Hnda & Hdisj). split.
  - rewrite get_command_aliases_In. split.
    + intros Hin. split; [now apply resolve_alias|].
      intros ->. apply (Hdisj n); [exact (alias_targets _ Hc _ _ Hin)|].
      now apply (in_map fst) in Hin.
    + intros [Hres Hne]. unfold _resolve_command in Hres.
      destruct (dict_in a (commands self) || dict_in a (async_commands self)).
      * injection Hres as <-. tauto.
      * now apply dict_get_Some_In.
  - unfold get_command_aliases, dict_items. now apply NoDup_map_filter.
Qed.

Lemma aliases_are_what_resolves_witness :
  reachable add_cli /\
  get_command_aliases add_cli "add" = ["sum"; "plus"] /\
  (In "plus" (get_command_aliases add_cli "add") <->
   _resolve_command add_cli "plus" = Some "add" /\ "plus" <> "add").
Proof.
  assert (Hr : reachable add_cli) by (apply register_seq_reachable, reach_init).
  split; [exact Hr|]. split; [reflexivity|].
  exact (proj1 (aliases_are_what_resolves add_cli "add" "plus" Hr)).
Defined.

Lemma register_all_alias_map rs : forall self self',
  register_all self rs = Some self' ->
  alias_map self' =
  alias_map self ++
  flat_map (fun r => map (fun a => (a, reg_name r)) (aliases_of r)) rs.
Proof.
  induction rs as [|r rs IH]; intros self self'; simpl.
  - intros H. injection H as <-. now rewrite app_nil_r.
  - destruct (register self r) as [self1 [|e]] eqn:E; [|discriminate].
    intros H. rewrite (IH _ _ H).
    unfold register in E. apply register_command_Done in E.
    destruct E as (_ & _ & Hm & _). fold (aliases_of r) in Hm.
    now rewrite Hm, <- app_assoc.
Qed.

Lemma register_all_names_NoDup rs self :
  register_all init rs = Some self -> NoDup (map reg_name rs).
Proof.
  intros Hall.
  pose proof (register_all_consistent rs init self consistent_init Hall) as Hc.
  pose proof (register_all_primary rs init self Hall) as Hp. simpl in Hp.
  eapply Permutation_NoDup; [exact Hp | now apply primary_NoDup].
Qed.

Lemma filter_target_other (m n : string) (al : list string) :
  m <> n ->
  filter (fun at_ : string * string => String.eqb (snd at_) n)
         (map (fun a => (a, m)) al) = [].
Proof.
  intros Hne. induction al as [|a al IH]; simpl; [reflexivity|].
  apply String.eqb_neq in Hne. now rewrite Hne.
Qed.

Lemma filter_target_same (n : string) (al : list string) :
  map fst (filter (fun at_ : string * string => String.eqb (snd at_) n)
                  (map (fun a => (a, n)) al)) = al.
Proof.
  induction al as [|a al IH]; simpl; [reflexivity|].
  rewrite String.eqb_refl. simpl. now rewrite IH.
Qed.

Lemma filter_target_none (n : string) (rs : list registration) :
  (forall r, In r rs -> reg_name r <> n) ->
  filter (fun at_ : string * string => String.eqb (snd at_) n)
         (flat_map (fun r => map (fun a => (a, reg_name r)) (aliases_of r)) rs) = [].
Proof.
  induction rs as [|r rs IH]; simpl; intros H; [reflexivity|].
  rewrite filter_app, filter_target_other, IH; auto.
Qed.

Lemma get_command_aliases_registered rs self r :
  register_all init rs = Some self -> In r rs ->
  get_command_aliases self (reg_name r) = aliases_of r.
Proof.
  intros Hall Hr.
  pose proof (register_all_names_NoDup rs self Hall) as Hnd.
  unfold get_command_aliases, dict_items.
  rewrite (register_all_alias_map rs init self Hall). simpl.
  clear Hall. induction rs as [|r0 rs IH]; [destruct Hr|].
  simpl in *. inversion Hnd as [|? ? Hr0 Hnd']; subst.
  rewrite filter_app, map_app. destruct Hr as [->|Hr].
  - rewrite filter_target_same, filter_target_none, app_nil_r; [reflexivity|].
    intros r' Hr' Heq. apply Hr0. rewrite <- Heq. now apply in_map.
  - rewrite filter_target_other, IH; auto.
    intros Heq. apply Hr0. rewrite Heq. now apply in_map.
Qed.

(** X10.  After registrations that all returned, the aliases listed for a
    registered command are the aliases its registration asked for, in the
    order in which they were installed, and a name that was not registered
    has no alias listed. *)
Theorem aliases_in_registration_order
    (rs : list registration) (self : DynamicCLI) :
  register_all init rs = Some self ->
  (forall r, In r rs -> get_command_aliases self (reg_name r) = aliases_of r) /\
  (forall n, ~ In n (map reg_name rs) -> get_command_aliases self n = []).
Proof.
  intros Hall. split.
  - intros r Hr. now apply (get_command_aliases_registered rs).
  - intros n Hn. unfold get_command_aliases, dict_items.
    rewrite (register_all_alias_map rs init self Hall). simpl.
    rewrite filter_target_none; [reflexivity|].
    intros r Hr Heq. apply Hn. rewrite <- Heq. now apply in_map.
Qed.

Lemma aliases_in_registration_order_witness :
  register_all init [reg_greet; reg_add] =
    Some (register_seq init [reg_greet; reg_add]) /\
  get_command_aliases (register_seq init [reg_greet; reg_add]) "add" =
    ["sum"; "plus"].
Proof.
  split; [reflexivity|].
  exact (proj1 (aliases_in_registration_order [reg_greet; reg_add]
                  (register_seq init [reg_greet; reg_add]) eq_refl)
           reg_add (or_intror (or_introl eq_refl))).
Defined.

(** ** Stored docs and the help of a command *)

Lemma doc_or_default_nonempty doc : doc_or_default doc <> EmptyString.
Proof.
  unfold doc_or_default. destruct doc as [d|]; [|discriminate].
  destruct (String.eqb_spec d EmptyString); [discriminate | assumption].
Qed.

Lemma store_command_docs self name handler async_handler doc :
  docs (store_command self name handler async_handler doc) =
  dict_set name (doc_or_default doc) (docs self).
Proof. unfold store_command. now destruct async_handler. Qed.

(** What a call does to the docs and to the primary names, whether it
    returns or raises: nothing when the name is taken, and otherwise the
    name is added with its doc. *)
Lemma register_command_docs self name handler async_handler aliases doc :
  let self' := fst (register_command self name handler async_handler aliases doc) in
  if taken self name
  then docs self' = docs self /\ primary self' = primary self
  else docs self' = dict_set name (doc_or_default doc) (docs self) /\
       Permutation (name :: primary self) (primary self').
Proof.
  rewrite register_command_unfold.
  destruct (taken self name) eqn:Hfree; [simpl; auto|].
  cbv zeta. rewrite aliases_loop.
  set (self2 := store_command self name handler async_handler doc).
  pose proof (install_aliases_fields self2 name
                (match aliases with Some al => al | None => [] end)) as Hf.
  pose proof (primary_store_command self name handler async_handler doc Hfree) as Hp.
  pose proof (store_command_docs self name handler async_handler doc) as Hd.
  fold self2 in Hp, Hd.
  destruct (install_aliases self2 name _) as [self3 [|e]]; simpl in *;
    destruct Hf as (Hc & Ha & Hdocs & _); unfold primary in *; simpl;
    rewrite ?Hc, ?Ha, ?Hdocs; auto.
Qed.

Lemma register_all_docs rs k : forall self self',
  register_all self rs = Some self' -> taken self k = true ->
  dict_get k (docs self') = dict_get k (docs self).
Proof.
  induction rs as [|r rs IH]; intros self self'; simpl.
  - intros H _. now injection H as <-.
  - destruct (register self r) as [self1 [|e]] eqn:E; [|discriminate].
    intros H Hk. unfold register in E.
    pose proof (register_command_docs self (reg_name r) (reg_handler r)
                  (reg_async r) (reg_aliases r) (reg_doc r)) as Hd.
    pose proof (register_command_Done _ _ _ _ _ _ _ E) as (Hfree & Hp & Hm & _).
    rewrite E in Hd. simpl in Hd. rewrite Hfree in Hd. destruct Hd as [Hd _].
    rewrite (IH _ _ H).
    + rewrite Hd. apply dict_get_set_other. intros ->. congruence.
    + apply taken_true. apply taken_true in Hk. unfold names in *.
      rewrite in_app_iff in *. destruct Hk as [Hk|Hk].
      * left. apply (Permutation_in _ Hp). now right.
      * right. rewrite Hm, dict_keys_app, in_app_iff. now left.
Qed.

Lemma register_all_doc_stored rs r : forall self self',
  register_all self rs = Some self' -> In r rs ->
  dict_get (reg_name r) (docs self') = Some (doc_or_default (reg_doc r)).
Proof.
  induction rs as [|r0 rs IH]; intros self self'; simpl; [intros _ []|].
  destruct (register self r0) as [self1 [|e]] eqn:E; [|discriminate].
  intros H [->|Hr]; [|now apply (IH _ _ H)].
  unfold register in E.
  pose proof (register_command_docs self (reg_name r) (reg_handler r)
                (reg_async r) (reg_aliases r) (reg_doc r)) as Hd.
  pose proof (register_command_Done _ _ _ _ _ _ _ E) as (Hfree & Hp & _).
  rewrite E in Hd. simpl in Hd. rewrite Hfree in Hd. destruct Hd as [Hd _].
  rewrite (register_all_docs rs (reg_name r) _ _ H).
  - rewrite Hd. apply dict_get_set_same.
  - apply taken_true. unfold names. apply in_or_app. left.
    apply (Permutation_in _ Hp). now left.
Qed.

(** X11.  After registrations that all returned, the help of a registered
    command prints the doc its registration gave, and the fixed text
    [No description provided.] when it gave none or an empty one; the doc
    printed is never empty. *)
Theorem help_shows_registered_doc
    (rs : list registration) (self : DynamicCLI) (r : registration) :
  register_all init rs = Some self -> In r rs ->
  show_command_help self (reg_name r) =
    [Print (fstring ["Help for command '"; reg_name r; "':"; nl;
                     doc_or_default (reg_doc r)])] /\
  doc_or_default (reg_doc r) <> EmptyString /\
  (reg_doc r = None \/ reg_doc r = Some EmptyString ->
   doc_or_default (reg_doc r) = "No description provided.").
Proof.
  intros Hall Hr. unfold show_command_help.
  rewrite (register_all_doc_stored rs r init self Hall Hr).
  split; [reflexivity|]. split; [apply doc_or_default_nonempty|].
  intros [-> | ->]; reflexivity.
Qed.

Lemma help_shows_registered_doc_witness :
  register_all init [reg_greet; reg_add] =
    Some (register_seq init [reg_greet; reg_add]) /\
  show_command_help (register_seq init [reg_greet; reg_add]) "greet" =
    [Print (fstring ["Help for command 'greet':"; nl; "No description provided."])].
Proof.
  split; [reflexivity|].
  exact (proj1 (help_shows_registered_doc [reg_greet; reg_add]
                  (register_seq init [reg_greet; reg_add]) reg_greet eq_refl
                  (or_introl eq_refl))).
Defined.

Lemma register_command_documented self name handler async_handler aliases doc :
  documented self ->
  documented (fst (register_command self name handler async_handler aliases doc)).
Proof.
  intros Hdoc.
  pose proof (register_command_docs self name handler async_handler aliases doc) as H.
  cbv zeta in H. destruct (taken self name) eqn:Hfree.
  - destruct H as [Hd Hp]. intros n Hn. rewrite Hd. apply Hdoc. now rewrite <- Hp.
  - destruct H as [Hd Hp]. intros n Hn. rewrite Hd.
    destruct (String.eqb_spec n name) as [->|Hne].
    + rewrite dict_get_set_same. eexists. split; [reflexivity|].
      apply doc_or_default_nonempty.
    + rewrite dict_get_set_other by exact Hne. apply Hdoc.
      apply (Permutation_in _ (Permutation_sym Hp)) in Hn.
      destruct Hn as [<-|Hn]; tauto.
Qed.

Lemma list_commands_documented self :
  documented self -> documented (fst (list_commands self)).
Proof.
  unfold list_commands. now destruct (_all_commands_cached self).
Qed.

Lemma reachable_documented self : reachable self -> documented self.
Proof.
  induction 1 as [|self name handler async_handler aliases doc _ IH
                  |self _ IH|self prefix _ IH|self args _ IH].
  - intros n [].
  - now apply register_command_documented.
  - now apply list_commands_documented.
  - rewrite complete_command_state. now apply list_commands_documented.
  - destruct (run_async_state self args) as [-> | ->];
      [exact IH | now apply list_commands_documented].
Qed.

(** X12.  In every object a program can hold, whatever resolves has a
    stored doc that is not empty, and the help of the resolved command
    prints it: the placeholder [No description available.] of
    [show_command_help] is never printed for a command that resolves. *)
Theorem resolved_command_has_doc (self : DynamicCLI) (x n : string) :
  reachable self -> _resolve_command self x = Some n ->
  exists d,
    d <> EmptyString /\ dict_get n (docs self) = Some d /\
    show_command_help self n =
      [Print (fstring ["Help for command '"; n; "':"; nl; d])].
Proof.
  intros Hr Hres.
  pose proof (resolve_Some_primary self x n (reachable_consistent self Hr) Hres) as Hn.
  destruct (reachable_documented self Hr n Hn) as (d & Hd & Hne).
  exists d. split; [exact Hne|]. split; [exact Hd|].
  unfold show_command_help. now rewrite Hd.
Qed.

Lemma resolved_command_has_doc_witness :
  reachable add_cli /\ _resolve_command add_cli "sum" = Some "add" /\
  exists d,
    d <> EmptyString /\ dict_get "add" (docs add_cli) = Some d /\
    show_command_help add_cli "add" =
      [Print (fstring ["Help for command '"; "add"; "':"; nl; d])].
Proof.
  assert (Hr : reachable add_cli) by (apply register_seq_reachable, reach_init).
  split; [exact Hr|]. split; [reflexivity|].
  exact (resolved_command_has_doc add_cli "sum" "add" Hr eq_refl).
Defined.

(** ** Runs *)

(** X13.  In every object a program can hold, resolution goes one step:
    what a string resolves to is a primary name, which resolves to itself
    and has a stored handler; no alias points to an alias or to nothing. *)
Theorem resolution_is_idempotent (self : DynamicCLI) (x n : string) :
  reachable self -> _resolve_command self x = Some n ->
  _resolve_command self n = Some n /\
  In n (primary self) /\
  exists handler is_async, handler_of self n = Some (handler, is_async).
Proof.
  intros Hr Hres.
  pose proof (resolve_Some_primary self x n (reachable_consistent self Hr) Hres) as Hn.
  split; [now apply resolve_primary|]. split; [exact Hn|].
  now apply handler_of_primary.
Qed.

Lemma resolution_is_idempotent_witness :
  reachable add_cli /\ _resolve_command add_cli "plus" = Some "add" /\
  _resolve_command add_cli "add" = Some "add" /\
  handler_of add_cli "add" = Some (noop, false).
Proof.
  assert (Hr : reachable add_cli) by (apply register_seq_reachable, reach_init).
  split; [exact Hr|]. split; [reflexivity|].
  split; [|reflexivity].
  exact (proj1 (resolution_is_idempotent add_cli "plus" "add" Hr eq_refl)).
Defined.

(** X14.  A run through an alias is the run through the primary name: when
    a first token other than the help flag resolves to a name that is
    neither empty nor the help flag, the object after the run, the trace and
    the end of the run are those of the run with the resolved name as first
    token. *)
Theorem alias_runs_like_primary
    (self : DynamicCLI) (a n : string) (rest : list string) :
  reachable self ->
  _resolve_command self a = Some n ->
  a <> "--help" -> n <> "--help" -> n <> EmptyString ->
  run_async self (a :: rest) = run_async self (n :: rest).
Proof.
  intros Hr Hres Ha Hn Hne.
  assert (Hnn : _resolve_command self n = Some n).
  { apply resolve_primary.
    eapply resolve_Some_primary; [now apply reachable_consistent | exact Hres]. }
  apply String.eqb_neq in Ha, Hn, Hne.
  unfold run_async. rewrite Ha, Hn, Hres, Hnn, Hne. reflexivity.
Qed.

Lemma alias_runs_like_primary_witness :
  reachable add_cli /\ _resolve_command add_cli "sum" = Some "add" /\
  run_async add_cli ["sum"; "2"; "3"] = run_async add_cli ["add"; "2"; "3"] /\
  trace_of (run_async add_cli ["sum"; "2"; "3"]) = [Invoke "add" false ["2"; "3"]].
Proof.
  assert (Hr : reachable add_cli) by (apply register_seq_reachable, reach_init).
  split; [exact Hr|]. split; [reflexivity|]. split; [|reflexivity].
  apply (alias_runs_like_primary add_cli "sum" "add" ["2"; "3"] Hr);
    [reflexivity | discriminate | discriminate | discriminate].
Defined.

Lemma invocations_show_help self : invocations (snd (show_help self)) = [].
Proof.
  unfold show_help. destruct (list_commands self) as [self' cmds]. simpl.
  unfold invocations. rewrite flat_map_app. simpl. rewrite app_nil_r.
  induction cmds as [|c cmds IH]; simpl; auto.
Qed.

(** X15.  A run calls at most one handler, and only in the Dispatch state:
    either the trace has no handler call, or the first token resolves to a
    non-empty name in the Dispatch state and the only call is the one of
    that command on the tokens after the first.  The help flags, an unknown
    first token and a command registered under the empty name lead to no
    call. *)
Theorem run_async_calls_at_most_one_handler (self : DynamicCLI) (args : list string) :
  invocations (trace_of (run_async self args)) = [] \/
  exists n,
    dispatch_state self args = Some n /\ n <> EmptyString /\
    invocations (trace_of (run_async self args)) = [(n, skipn 1 args)].
Proof.
  pose proof (invocations_show_help self) as Hh.
  unfold trace_of, run_async, dispatch_state.
  destruct args as [|a0 rest].
  { left. now destruct (show_help self). }
  destruct (String.eqb a0 "--help").
  { left. now destruct (show_help self). }
  destruct (_resolve_command self a0) as [n|].
  2:{ left. now destruct (show_help self). }
  destruct (String.eqb_spec n EmptyString) as [->|Hne].
  { left. now destruct (show_help self). }
  simpl tl. simpl skipn.
  assert (Hrest : match rest with
                  | a1 :: _ => if String.eqb a1 "--help" then None else Some n
                  | [] => Some n
                  end =
                  if match rest with a1 :: _ => String.eqb a1 "--help" | [] => false end
                  then None else Some n).
  { now destruct rest. }
  rewrite Hrest.
  destruct (match rest with a1 :: _ => String.eqb a1 "--help" | [] => false end).
  { left. reflexivity. }
  unfold _execute_sync, _execute_async.
  destruct (dict_get n (commands self)) as [h|].
  { right. exists n. rewrite guarded_call_dispatch. cbn [fst snd].
    rewrite invocations_dispatch_trace. auto. }
  destruct (dict_get n (async_commands self)) as [h|].
  { right. exists n. rewrite guarded_call_dispatch. cbn [fst snd].
    rewrite invocations_dispatch_trace. auto. }
  left. now destruct (show_help self).
Qed.

Lemma end_of_dispatch self n rest :
  snd (match dict_get n (commands self) with
       | Some handler =>
           let '(trace, t) :=
             guarded_call n false (_execute_sync handler rest) rest in
           (self, trace, t)
       | None =>
           match dict_get n (async_commands self) with
           | Some handler =>
               let '(trace, t) :=
                 guarded_call n true (_execute_async handler rest) rest in
               (self, trace, t)
           | None =>
               let '(self', help) := show_help self in
               (self',
                Print (fstring ["Error: command '"; n; "' not found."]) :: help,
                Return 1)
           end
       end) =
  match handler_of self n with
  | Some (handler, _) => dispatch_end handler rest
  | None => Return 1
  end.
Proof.
  unfold handler_of, _execute_sync, _execute_async.
  destruct (dict_get n (commands self)) as [h|].
  { now rewrite guarded_call_dispatch. }
  destruct (dict_get n (async_commands self)) as [h|].
  { now rewrite guarded_call_dispatch. }
  now destruct (show_help self).
Qed.

(** X16.  A run returns 0 exactly in these cases: the first token is the
    help flag; or the first token resolves to a non-empty name and either
    the second token is the help flag, or the stored handler of the resolved
    command returns on the tokens after the first.  In particular no
    argument, an unknown first token and a command registered under the
    empty name never give 0. *)
Theorem run_async_returns_0_iff (self : DynamicCLI) (args : list string) :
  end_of (run_async self args) = Return 0 <->
  match args with
  | [] => False
  | a0 :: rest =>
      a0 = "--help" \/
      exists n,
        _resolve_command self a0 = Some n /\ n <> EmptyString /\
        ((exists rest', rest = "--help" :: rest') \/
         exists handler is_async,
           handler_of self n = Some (handler, is_async) /\
           snd (handler rest) = Returns)
  end.
Proof.
  unfold end_of, run_async. destruct args as [|a0 rest].
  { destruct (show_help self). simpl. split; [discriminate | tauto]. }
  destruct (String.eqb_spec a0 "--help") as [->|Ha0].
  { destruct (show_help self). simpl. tauto. }
  destruct (_resolve_command self a0) as [n|].
  2:{ destruct (show_help self). simpl. split; [discriminate|].
      intros [H|(n & H & _)]; [tauto | discriminate]. }
  destruct (String.eqb_spec n EmptyString) as [->|Hne].
  { destruct (show_help self). simpl. split; [discriminate|].
    intros [H|(n & H & Hn & _)]; [tauto|]. injection H as <-. tauto. }
  simpl tl.
  destruct (match rest with a1 :: _ => String.eqb a1 "--help" | [] => false end) eqn:E1.
  { simpl. split; [intros _ | reflexivity]. right. exists n.
    split; [reflexivity|]. split; [exact Hne|]. left.
    destruct rest as [|a1 rest']; [discriminate|].
    apply String.eqb_eq in E1. subst. eauto. }
  rewrite end_of_dispatch. split.
  - intros H. right. exists n. split; [reflexivity|]. split; [exact Hne|]. right.
    destruct (handler_of self n) as [[h b]|]; [|discriminate].
    exists h, b. split; [reflexivity|]. unfold dispatch_end in H.
    destruct (snd (h rest)); [reflexivity | discriminate | discriminate].
  - intros [H|(n' & Hn' & _ & [(rest' & ->)|(h & b & Hh & Hret)])]; [tauto | |].
    + simpl in E1. discriminate.
    + injection Hn' as <-. rewrite Hh. unfold dispatch_end. now rewrite Hret.
Qed.

(** ** The global help *)

Lemma register_command_Done_async self name handler async_handler aliases doc self' :
  register_command self name handler async_handler aliases doc = (self', Done) ->
  dict_keys (async_commands self') =
  dict_keys (async_commands self) ++ (if async_handler then [name] else []).
Proof.
  rewrite register_command_unfold.
  destruct (taken self name) eqn:Hfree; [discriminate|].
  cbv zeta. rewrite aliases_loop.
  set (self2 := store_command self name handler async_handler doc).
  pose proof (install_aliases_fields self2 name
                (match aliases with Some al => al | None => [] end)) as Hf.
  destruct (install_aliases self2 name _) as [self3 [|e]]; [|discriminate].
  intros H. injection H as <-. simpl in *. destruct Hf as (_ & -> & _).
  unfold taken in Hfree. rewrite !orb_false_iff in Hfree.
  destruct Hfree as [[_ Ha] _].
  subst self2. unfold store_command. destruct async_handler; simpl.
  - now rewrite (dict_set_fresh _ _ _ Ha), dict_keys_app.
  - now rewrite app_nil_r.
Qed.

Lemma register_all_async rs : forall self self',
  register_all self rs = Some self' ->
  dict_keys (async_commands self') =
  dict_keys (async_commands self) ++ map reg_name (filter reg_async rs).
Proof.
  induction rs as [|r rs IH]; intros self self'; simpl.
  - intros H. injection H as <-. now rewrite app_nil_r.
  - destruct (register self r) as [self1 [|e]] eqn:E; [|discriminate].
    intros H. rewrite (IH _ _ H). unfold register in E.
    rewrite (register_command_Done_async _ _ _ _ _ _ _ E), <- app_assoc.
    now destruct (reg_async r).
Qed.

Lemma NoDup_map_inj {A B : Type} (f : A -> B) (l : list A) x y :
  NoDup (map f l) -> In x l -> In y l -> f x = f y -> x = y.
Proof.
  induction l as [|z l IH]; simpl; intros Hnd Hx Hy Heq; [destruct Hx|].
  inversion Hnd as [|? ? Hz Hnd']; subst.
  destruct Hx as [->|Hx], Hy as [->|Hy]; auto.
  - exfalso. apply Hz. rewrite Heq. now apply in_map.
  - exfalso. apply Hz. rewrite <- Heq. now apply in_map.
Qed.

Lemma registered_async rs self r :
  register_all init rs = Some self -> In r rs ->
  dict_in (reg_name r) (async_commands self) = reg_async r.
Proof.
  intros Hall Hr.
  pose proof (register_all_names_NoDup rs self Hall) as Hnd.
  pose proof (register_all_async rs init self Hall) as Hk. simpl in Hk.
  destruct (reg_async r) eqn:Ea.
  - apply dict_in_true. rewrite Hk. apply in_map, filter_In. auto.
  - apply dict_in_false. rewrite Hk. intros Hin.
    apply in_map_iff in Hin. destruct Hin as (r' & Heq & Hin).
    apply filter_In in Hin. destruct Hin as [Hin Ha'].
    rewrite (NoDup_map_inj reg_name rs r' r Hnd Hin Hr Heq) in Ha'. congruence.
Qed.

(** X17.  After registrations that all returned, the global help is the
    header, one line per registered command in ascending order of the names,
    and the hint; the line of a command is two spaces, its name, [(sync)]
    or [(async)] as it was registered, and, when its registration asked for
    aliases, these aliases in the order asked, separated by commas. *)
Theorem show_help_after_successful_registrations
    (rs : list registration) (self : DynamicCLI) :
  register_all init rs = Some self ->
  exists line,
    snd (show_help self) =
      [Print "Available commands:"] ++
      map line (sorted (map reg_name rs)) ++
      [Print (fstring [nl; "Use '<command> --help' for details about a specific command."])] /\
    (forall r, In r rs -> line (reg_name r) = Print (registered_line r)).
Proof.
  intros Hall.
  pose proof (register_all_cache rs init self eq_refl Hall) as Hcache.
  assert (Hl : sorted (primary self) = sorted (map reg_name rs)).
  { apply sorted_unique; [|apply sorted_ascending].
    rewrite (register_all_primary rs init self Hall). apply sorted_perm. }
  unfold show_help, list_commands. rewrite Hcache. fold (primary self).
  cbv zeta. rewrite Hl. eexists. split; [reflexivity|].
  intros r Hr. cbn [fst snd]. unfold registered_line, _format_aliases.
  change (get_command_aliases (set_cache self _) (reg_name r))
    with (get_command_aliases self (reg_name r)).
  change (async_commands (set_cache self _)) with (async_commands self).
  rewrite (get_command_aliases_registered rs self r Hall Hr).
  rewrite (registered_async rs self r Hall Hr). reflexivity.
Qed.

Lemma show_help_after_successful_registrations_witness :
  register_all init [reg_greet; reg_add; reg_countdown] =
    Some (register_seq init [reg_greet; reg_add; reg_countdown]) /\
  snd (show_help (register_seq init [reg_greet; reg_add; reg_countdown])) =
    [Print "Available commands:";
     Print "  add (sync) (aliases: sum, plus)";
     Print "  countdown (async)";
     Print "  greet (sync)";
     Print (fstring [nl; "Use '<command> --help' for details about a specific command."])] /\
  exists line,
    snd (show_help (register_seq init [reg_greet; reg_add; reg_countdown])) =
      [Print "Available commands:"] ++
      map line (sorted (map reg_name [reg_greet; reg_add; reg_countdown])) ++
      [Print (fstring [nl; "Use '<command> --help' for details about a specific command."])] /\
    (forall r, In r [reg_greet; reg_add; reg_countdown] ->
       line (reg_name r) = Print (registered_line r)).
Proof.
  split; [reflexivity|]. split; [reflexivity|].
  exact (show_help_after_successful_registrations
           [reg_greet; reg_add; reg_countdown]
           (register_seq init [reg_greet; reg_add; reg_countdown]) eq_refl).
Defined.

(** ** The blocking entry point *)

(** X18.  [run] never returns: it ends with SystemExit carrying the code of
    the run, which is 0 or 1, or with the exception, not an [Exception],
    that the dispatched handler raised.  It dispatches the command line
    without the program name only when [args] is [None]: an empty list that
    is passed is kept, and gives the no-command notice and status 1 whatever
    the command line is. *)
Theorem run_exits_with_0_or_1
    (self : DynamicCLI) (argv : list string) (args : option (list string)) :
  let used := match args with None => skipn 1 argv | Some a => a end in
  match snd (run self argv args) with
  | SystemExit code =>
      (code = 0%Z \/ code = 1%Z) /\ end_of (run_async self used) = Return code
  | Uncaught e =>
      exists resolved handler is_async,
        dispatch_state self used = Some resolved /\
        handler_of self resolved = Some (handler, is_async) /\
        snd (handler (skipn 1 used)) = RaisesBase e
  end /\
  snd (run self argv (Some [])) = SystemExit 1 /\
  hd_error (printed (snd (fst (run self argv (Some []))))) = Some no_command_notice.
Proof.
  intros used. split.
  - unfold run. fold used.
    pose proof (run_async_exit_code self used) as Hcode.
    pose proof (run_async_propagates self used) as Hprop.
    unfold end_of in *.
    destruct (run_async self used) as [[self' trace] [code|e]]; simpl in *.
    + split; [now apply Hcode | reflexivity].
    + now apply Hprop.
  - unfold run, run_async. destruct (show_help self). simpl. auto.
Qed.

(** ** The example [examples/command_suggestions.py] *)

Lemma ascending_filter f l : ascending l -> ascending (filter f l).
Proof.
  unfold ascending. induction 1 as [|x l Hl IH Hx]; simpl; [constructor|].
  destruct (f x); [|exact IH]. constructor; [exact IH|].
  rewrite Forall_forall in *. intros y Hy. apply filter_In in Hy. now apply Hx.
Qed.

Lemma sorted_filter_ascending f l : ascending l -> sorted (filter f l) = filter f l.
Proof.
  intros Hl. apply sorted_unique; [reflexivity | now apply ascending_filter].
Qed.

Lemma suggestions_listing :
  list_commands suggestions_cli =
  (fst (list_commands suggestions_cli), ["restart"; "start"; "stop"]).
Proof. reflexivity. Qed.

Lemma suggestions_listing_again :
  list_commands (fst (list_commands suggestions_cli)) =
  (fst (list_commands suggestions_cli), ["restart"; "start"; "stop"]).
Proof. reflexivity. Qed.

(** A run of the example's object on a listed name. *)
Lemma suggestions_run (name line doc : string) (rest : list string) :
  handler_of (fst (list_commands suggestions_cli)) name =
    Some (no_parameters name line, false) ->
  dict_get name (docs (fst (list_commands suggestions_cli))) = Some doc ->
  name <> "--help" -> name <> EmptyString ->
  _resolve_command (fst (list_commands suggestions_cli)) name = Some name ->
  run_async (fst (list_commands suggestions_cli)) (name :: rest) =
  (fst (list_commands suggestions_cli),
   match rest with
   | [] => [Invoke name false []; Print line]
   | a1 :: _ =>
       if String.eqb a1 "--help"
       then [Print (fstring ["Help for command '"; name; "':"; nl; doc])]
       else [Invoke name false rest;
             Print (failure_line name (fstring
               [name; "() takes 0 positional arguments but ";
                decimal (length rest);
                if Nat.eqb (length rest) 1 then " was given" else " were given"]))]
   end,
   match rest with
   | [] => Return 0
   | a1 :: _ => if String.eqb a1 "--help" then Return 0 else Return 1
   end).
Proof.
  intros Hh Hd Hn Hne Hres. pose proof Hn as Hn'. apply String.eqb_neq in Hn'.
  destruct rest as [|a1 rest'].
  - assert (Hds : dispatch_state (fst (list_commands suggestions_cli)) [name] = Some name).
    { unfold dispatch_state. now rewrite Hn', Hres. }
    rewrite (run_async_dispatch _ [name] name (no_parameters name line) false Hds Hne Hh).
    reflexivity.
  - destruct (String.eqb a1 "--help") eqn:E1.
    + unfold run_async. apply String.eqb_neq in Hne.
      rewrite Hn', Hres, Hne. cbn [tl]. rewrite E1.
      unfold show_command_help. now rewrite Hd.
    + assert (Hds : dispatch_state (fst (list_commands suggestions_cli))
                      (name :: a1 :: rest') = Some name).
      { unfold dispatch_state. now rewrite Hn', Hres, E1. }
      rewrite (run_async_dispatch _ (name :: a1 :: rest') name
                 (no_parameters name line) false Hds Hne Hh).
      reflexivity.
Qed.

Lemma suggestions_names_ascending : ascending ["restart"; "start"; "stop"].
Proof.
  change ["restart"; "start"; "stop"] with (sorted ["start"; "stop"; "restart"]).
  apply sorted_ascending.
Qed.

(** X19.  The main block of the example, for every line of tokens.  When
    the first token (the empty string when there is none) is one of the
    three commands, the command is run and the process exits: with status 0
    after the command's line when no token follows, with status 0 after the
    help of the command when the help flag follows, and with status 1 after
    the TypeError failure line when anything else follows.  Otherwise
    nothing is run and one line is printed: the names that start with the
    token, or [Unknown command.] when there is none - so the help flag alone
    is answered with [Unknown command.]. *)
Theorem suggestions_example (args : list string) :
  let command_name := hd EmptyString args in
  let rest := tl args in
  let listed := ["restart"; "start"; "stop"] in
  let matching := filter (fun c => startswith c command_name) listed in
  let result := suggestions_main suggestions_cli args in
  if existsb (fun c => String.eqb c command_name) listed then
    match rest with
    | [] =>
        (exists line,
           snd (fst result) = [Invoke command_name false []; Print line]) /\
        snd result = Some (SystemExit 0)
    | a1 :: _ =>
        if String.eqb a1 "--help" then
          (exists doc,
             snd (fst result) =
               [Print (fstring ["Help for command '"; command_name; "':"; nl; doc])]) /\
          snd result = Some (SystemExit 0)
        else
          snd (fst result) =
            [Invoke command_name false rest;
             Print (failure_line command_name (fstring
               [command_name; "() takes 0 positional arguments but ";
                decimal (length rest);
                if Nat.eqb (length rest) 1 then " was given" else " were given"]))] /\
          snd result = Some (SystemExit 1)
    end
  else
    snd (fst result) =
      [Print match matching with
             | [] => "Unknown command."
             | _ :: _ => fstring ["Did you mean: "; String.concat ", " matching; "?"]
             end] /\
    snd result = None.
Proof.
  intros command_name rest listed matching result.
  subst result matching rest. unfold suggestions_main.
  change (match args with a0 :: _ => a0 | [] => EmptyString end) with command_name.
  rewrite suggestions_listing. fold listed.
  destruct (existsb (fun c => String.eqb c command_name) listed) eqn:E; cbn [negb].
  - destruct args as [|a0 rest]; [discriminate E|].
    subst command_name listed. cbn [hd tl existsb] in *.
    rewrite !orb_true_iff, !String.eqb_eq in E.
    unfold run.
    destruct E as [<-|[<-|[<-|E]]]; [| | |discriminate E].
    + rewrite (suggestions_run "restart" "Process restarted." "Restarts the process." rest);
        try reflexivity; try discriminate.
      destruct rest as [|a1 rest']; [cbn [fst snd]; eauto|].
      destruct (String.eqb a1 "--help"); cbn [fst snd]; eauto.
    + rewrite (suggestions_run "start" "Process started." "Starts the process." rest);
        try reflexivity; try discriminate.
      destruct rest as [|a1 rest']; [cbn [fst snd]; eauto|].
      destruct (String.eqb a1 "--help"); cbn [fst snd]; eauto.
    + rewrite (suggestions_run "stop" "Process stopped." "Stops the process." rest);
        try reflexivity; try discriminate.
      destruct rest as [|a1 rest']; [cbn [fst snd]; eauto|].
      destruct (String.eqb a1 "--help"); cbn [fst snd]; eauto.
  - unfold complete_command. rewrite suggestions_listing_again. fold listed.
    change (dict_keys (alias_map (fst (list_commands suggestions_cli))))
      with (@nil string).
    cbn [filter]. rewrite app_nil_r.
    rewrite (sorted_filter_ascending _ listed suggestions_names_ascending).
    destruct (filter (fun cmd => startswith cmd command_name) listed); auto.
Qed.
